(** * CXO skyobject: the Pack working set, shallowly embedded

  The development follows the Go sources:
  - [data]: the key-value backend the sources call into;
  - [skyobjects]: the older [Container] ([Save], [Get]);
  - [skyobject]: the [Pack] of the newer package ([get], [add], [set],
    [Save], [init], [Refs], [RefByIndex], [Append], [Pop]).

  Conventions.  A [cipher.SHA256] is the number its 32 bytes spell, a
  [[]byte] is a [list byte], a Go [int], [int64] or [uint64] is a [Z], a
  Go map is a [gmap], a slice is a [list], an [error] result is an
  [option error] with [None] for [nil].  A [*walkNode] is an index into
  an explicit heap of walk nodes, so that copies of a [Dynamic] share
  the node they point to, as they do in Go. *)

From Stdlib Require Import ZArith NArith List Strings.Byte.
From stdpp Require Import gmap list strings.

Open Scope Z_scope.

Abbreviation bytes := (list byte).

(** [cipher.SHA256]: 32 bytes, read as a number. *)
Module cipher.
Abbreviation SHA256 := N.
(** The zero value of the array type. *)
Definition zero : SHA256 := 0%N.
End cipher.
Abbreviation SHA256 := cipher.SHA256.

(** ** The storage backend *)

Module data.

(** Modelled from the spec: how the backend is made to fail, the test
    double behind "a transaction failure is injected". *)
Inductive Fault :=
| NoFault
| FailView
| FailBegin
| FailSetMap (written : nat)
| FailCommit.

(** Modelled from the spec: the [data.DB] of package [data], not among the
    sources.  Section 6 gives its boundary: [get(key) -> (bytes, found)],
    [put_auto_key(bytes) -> key], and scoped [view(fn)] / [update(fn)]
    transactions "with rollback-on-error".  [objects] is the bucket of
    object envelopes; [fault] says how the next transactions behave. *)
Record DB := mkDB { objects : gmap SHA256 bytes; fault : Fault }.

(** Modelled from the spec: what a failed transaction reports. *)
Inductive TxError := TxFailed.

(** Modelled from the spec: a read-write transaction handle ([data.Tu]);
    it works on a private copy of the bucket. *)
Record Tu := mkTu { tu_objects : gmap SHA256 bytes; tu_fault : Fault }.

(** Modelled from the spec: [tx.Objects().Get(key)], [nil] when absent. *)
Definition Get (tx : gmap SHA256 bytes) (key : SHA256) : option bytes :=
  tx !! key.

(** Modelled from the spec: [tx.Objects().SetMap(m)] "writes the entire
    write buffer in one batch"; an injected failure stops it after
    [written] entries, leaving those in the transaction's copy. *)
Definition SetMap (tx : Tu) (m : gmap SHA256 bytes)
  : Tu * option TxError :=
  match tu_fault tx with
  | FailSetMap written =>
      (mkTu (list_to_map (take written (map_to_list m)) ∪ tu_objects tx)
            (tu_fault tx),
       Some TxFailed)
  | _ => (mkTu (m ∪ tu_objects tx) (tu_fault tx), None)
  end.

(** Modelled from the spec: [DB.View(fn)], a read-only transaction; [fn]
    sees the committed bucket. *)
Definition View {A} (db : DB) (a0 : A)
    (fn : gmap SHA256 bytes → A * option TxError) : A * option TxError :=
  match fault db with
  | FailView => (a0, Some TxFailed)
  | _ => fn (objects db)
  end.

(** Modelled from the spec: [DB.Update(fn)], a read-write transaction
    that "aborts and is fully rolled back" when [fn] fails, and can itself
    fail to begin or to commit. *)
Definition Update (db : DB) (fn : Tu → Tu * option TxError)
  : DB * option TxError :=
  match fault db with
  | FailBegin => (db, Some TxFailed)
  | f =>
      let '(tx, err) := fn (mkTu (objects db) f) in
      match err with
      | Some e => (db, Some e)
      | None =>
          match f with
          | FailCommit => (db, Some TxFailed)
          | _ => (mkDB (tu_objects tx) f, None)
          end
      end
  end.

(** Modelled from the spec: [DB.Get] outside a transaction. *)
Definition DBGet (db : DB) (key : SHA256) : option bytes := objects db !! key.

(** Modelled from the spec: [DB.Range], the keys of the bucket in the
    backend's iteration order. *)
Definition Range (db : DB) : list SHA256 := (map_to_list (objects db)).*1.

End data.

(** ** Package skyobjects: the Container *)

Module skyobjects.

Export data.

(** The record a Container stores: a schema key and the object's bytes. *)
Record href := mkhref { SchemaKey : SHA256; Data : bytes }.

(** What the Container takes from packages cipher and encoder. *)
Class Encoder := {
  SumSHA256 : bytes → SHA256;
  Serialize : href → bytes;
  DeserializeRaw : bytes → option href
}.

Section container.

Context `{Encoder}.

(** Modelled from the spec: [DB.AddAutoKey] of package [data], not among
    the sources: "computes/derives a content key and stores the envelope
    if absent (idempotent - storing the same bytes twice is a no-op and
    returns the same key)". *)
Definition AddAutoKey (db : DB) (val : bytes) : DB * SHA256 :=
  let key := SumSHA256 val in
  (match objects db !! key with
   | Some _ => db
   | None => mkDB (<[key := val]> (objects db)) (fault db)
   end, key).

Record Container := mkContainer {
  ds : DB;
  rootKey : SHA256;
  rootSeq : Z;
  schemas : gmap SHA256 string
}.

(** [NewContainer] *)
Definition NewContainer (db : DB) : Container :=
  mkContainer db cipher.zero 0 ∅.

(** [Container.Save] *)
Definition Save (c : Container) (schemaKey : SHA256) (data : bytes)
  : Container * SHA256 :=
  let h := mkhref schemaKey data in
  let '(db, key) := AddAutoKey (ds c) (Serialize h) in
  (mkContainer db (rootKey c) (rootSeq c) (schemas c), key).

(** The error of [Container.Get]: "no object found with key ...". *)
Inductive GetError := NoObjectFound (key : SHA256).

(** [Container.Get].  A failed [DeserializeRaw] leaves [h] the zero
    [href]; its error is dropped. *)
Definition Get (c : Container) (key : SHA256)
  : SHA256 * bytes * option GetError :=
  match DBGet (ds c) key with
  | None => (cipher.zero, [], Some (NoObjectFound key))
  | Some hrefData =>
      let h := default (mkhref cipher.zero []) (DeserializeRaw hrefData) in
      (SchemaKey h, Data h, None)
  end.

(** [Container.SaveSchema].  [ReadSchema] and the serialization of the
    schema are not among the sources: the schema's [Name] and its
    serialized form [schemaData] are taken as given, and so is the
    package's [_schemaType]. *)
Definition SaveSchema (_schemaType : SHA256) (c : Container)
    (name : string) (schemaData : bytes) : Container * SHA256 :=
  let h := mkhref _schemaType schemaData in
  let '(db, schemaKey) := AddAutoKey (ds c) (Serialize h) in
  (mkContainer db (rootKey c) (rootSeq c) (<[schemaKey := name]> (schemas c)),
   schemaKey).

End container.

End skyobjects.

(** ** Package node: what a node announces *)

Module node.

Export data.

(** The message that carries one hash. *)
Inductive Msg := Announce (hash : SHA256) | Ping.

(** [Node.sendEverythingWeHave]: one [Announce] for every key of the
    database. *)
Definition sendEverythingWeHave (db : DB) : list Msg :=
  Announce <$> Range db.

End node.

(** ** Package skyobject: the Pack *)

Module skyobject.

Export data.

(** Errors of the Type Registry (section 4.2 of the specification). *)
Inductive RegistryError := UnregisteredType | UnknownSchema | DecodeError.

(** What the Pack takes from outside the package: the Go values handed to
    it as [interface{}], [cipher.SumSHA256], and the Type Registry's
    [encode] and [decode], an "opaque deterministic encode/decode
    service". *)
Class Services := {
  obj : Type;
  SumSHA256 : bytes → SHA256;
  encode : obj → RegistryError + (SHA256 * bytes);
  decode : SHA256 → bytes → RegistryError + obj
}.

(** A [*walkNode]: an address in the heap of walk nodes. *)
Abbreviation ptr := nat.

(** What a call leaves when it may panic. *)
Inductive outcome (A : Type) :=
| Returns (a : A)
| Panics.
Arguments Returns {A} a.
Arguments Panics {A}.

Section pack.

Context `{Services}.

(** The errors the Pack returns. *)
Inductive error :=
| ErrViewOnlyTree
| ErrIndexOutOfRange
| ErrObjectNotFound (key : SHA256)
| ErrTx (e : TxError)
| ErrRegistry (e : RegistryError).

(** Unpacking flags: [1 << iota]. *)
Definition Flag := Z.
Definition EntireMerkleTrees : Flag := Z.shiftl 1 0.
Definition EntireTree : Flag := Z.shiftl 1 1.
Definition HashTableIndex : Flag := Z.shiftl 1 2.
Definition ViewOnly : Flag := Z.shiftl 1 3.
Definition GoTypes : Flag := Z.shiftl 1 4.
Definition Default : Flag := GoTypes.

(** [p.flags&f != 0] *)
Definition has_flag (flags f : Flag) : bool := negb (Z.land flags f =? 0).

(** Modelled from the spec: the [walkNode] a [Dynamic] points to, whose
    declaration is not among the sources.  It caches the materialized
    value and records the index at which the reference is attached
    ("position", section 3).  Its [pack] field is left out: there is one
    Pack. *)
Record walkNode := mkWalkNode { value : option obj; place : option nat }.

(** Modelled from the spec: "Dynamic reference: schema_id, object_hash"
    and the [walkNode] pointer the sources test against [nil]. *)
Record Dynamic := mkDynamic {
  SchemaRef : SHA256;
  Object : SHA256;
  dr_walkNode : option ptr
}.

(** [Dynamic{}] *)
Definition blank : Dynamic := mkDynamic cipher.zero cipher.zero None.

#[global] Instance Dynamic_inhabited : Inhabited Dynamic := populate blank.

(** Modelled from the spec: "Root: sequence, timestamp, refs". *)
Record Root := mkRoot { Seq : Z; Time : Z; Refs : list Dynamic }.

(** Modelled from the spec: [data.RootPack], "the newly committed Root
    snapshot (hash, sequence, timestamp)". *)
Record RootPack := mkRootPack { rp_Hash : SHA256; rp_Seq : Z; rp_Time : Z }.

(** The zero value of [data.RootPack]. *)
Definition zeroRootPack : RootPack := mkRootPack cipher.zero 0 0.

(** The Pack, with the memory its walk nodes live in.  [c] stands for
    [p.c.DB()]; [cache] is the map [Save] fills (the struct does not
    declare it); [reg] and [types] are behind [encode] and [decode]. *)
Record Pack := mkPack {
  c : DB;
  r : Root;
  flags : Flag;
  unsaved : gmap SHA256 bytes;
  cache : gmap SHA256 bytes;
  heap : list walkNode
}.

Definition set_c (db : DB) (p : Pack) : Pack :=
  mkPack db (r p) (flags p) (unsaved p) (cache p) (heap p).
Definition set_r (rt : Root) (p : Pack) : Pack :=
  mkPack (c p) rt (flags p) (unsaved p) (cache p) (heap p).
Definition set_unsaved (u : gmap SHA256 bytes) (p : Pack) : Pack :=
  mkPack (c p) (r p) (flags p) u (cache p) (heap p).
Definition set_cache (m : gmap SHA256 bytes) (p : Pack) : Pack :=
  mkPack (c p) (r p) (flags p) (unsaved p) m (heap p).
Definition set_heap (h : list walkNode) (p : Pack) : Pack :=
  mkPack (c p) (r p) (flags p) (unsaved p) (cache p) h.
Definition set_Time (t : Z) (p : Pack) : Pack :=
  set_r (mkRoot (Seq (r p)) t (Refs (r p))) p.
Definition set_Refs (drs : list Dynamic) (p : Pack) : Pack :=
  set_r (mkRoot (Seq (r p)) (Time (r p)) drs) p.

Definition lift_err (e : option TxError) : option error := ErrTx <$> e.

(** *** get, add, set *)

(** [Pack.get]: the write buffer first, then a read-only transaction. *)
Definition get (p : Pack) (key : SHA256) : option bytes * option error :=
  match unsaved p !! key with
  | Some val => (Some val, None)
  | None =>
      let '(val, err) :=
        View (c p) None (λ tx, (Get tx key, None)) in
      match err, val with
      | None, None => (None, Some (ErrObjectNotFound key))
      | _, _ => (val, lift_err err)
      end
  end.

(** [Pack.set] *)
Definition set (p : Pack) (key : SHA256) (val : bytes) : Pack :=
  set_unsaved (<[key := val]> (unsaved p)) p.

(** [Pack.add] *)
Definition add (p : Pack) (val : bytes) : Pack * SHA256 :=
  let key := SumSHA256 val in
  (set p key val, key).

(** [Pack.del] *)
Definition del (p : Pack) (key : SHA256) : Pack :=
  set_unsaved (delete key (unsaved p)) p.

(** *** Save *)

(** One turn of [for key, val := range p.unsaved]. *)
Definition migrate_step (p : Pack) (kv : SHA256 * bytes) : Pack :=
  let p := set_cache (<[kv.1 := kv.2]> (cache p)) p in
  set_unsaved (delete kv.1 (unsaved p)) p.

(** The loop after a successful transaction; the entries are visited in
    the map's iteration order. *)
Definition migrate (p : Pack) : Pack :=
  foldl migrate_step p (map_to_list (unsaved p)).

(** The function handed to [Update]. *)
Definition save_tx (p : Pack) (tx : Tu) : Tu * option TxError :=
  if (size (unsaved p) =? 0)%nat then (tx, None)
  else SetMap tx (unsaved p).

(** [Pack.Save]; [now] is [time.Now().UnixNano()].  The result [root] is
    never assigned and so is the zero [RootPack]. *)
Definition Save (now : Z) (p : Pack) : Pack * RootPack * option error :=
  if has_flag (flags p) ViewOnly then (p, zeroRootPack, Some ErrViewOnlyTree)
  else
    let p := set_Time now p in
    let '(db, err) := Update (c p) (save_tx p) in
    let p := set_c db p in
    match err with
    | None => (migrate p, zeroRootPack, None)
    | Some e => (p, zeroRootPack, Some (ErrTx e))
    end.

(** *** Walk nodes and references *)

(** [new(walkNode)]: a fresh node at the next free address. *)
Definition new_walkNode (p : Pack) : Pack * ptr :=
  (set_heap (heap p ++ [mkWalkNode None None]) p, length (heap p)).

Definition set_value (v : obj) (wn : walkNode) : walkNode :=
  mkWalkNode (Some v) (place wn).
Definition set_place (i : option nat) (wn : walkNode) : walkNode :=
  mkWalkNode (value wn) i.

(** The node a reference points to, if any. *)
Definition node (p : Pack) (dr : Dynamic) : option walkNode :=
  l ← dr_walkNode dr; heap p !! l.

(** The value cached for a reference. *)
Definition cached (p : Pack) (dr : Dynamic) : option obj :=
  wn ← node p dr; value wn.

(** The index recorded for a reference. *)
Definition recorded_index (p : Pack) (dr : Dynamic) : option nat :=
  wn ← node p dr; place wn.

(** "Unresolved vs Resolved": the sources test [walkNode] against [nil]. *)
Definition unpacked (dr : Dynamic) : Prop := is_Some (dr_walkNode dr).
Definition unpackedb (dr : Dynamic) : bool :=
  match dr_walkNode dr with Some _ => true | None => false end.

(** Modelled from the spec: [Dynamic.Value], not among the sources.  "If
    Unresolved, fetches the envelope via Pack's get, decodes through the
    Type Registry, transitions to Resolved, caches the value, and returns
    it; if already Resolved, returns the cached value with no I/O."  The
    receiver is a pointer: the updated reference is returned too. *)
Definition Value (p : Pack) (dr : Dynamic)
  : Pack * Dynamic * option obj * option error :=
  match cached p dr with
  | Some v => (p, dr, Some v, None)
  | None =>
      match get p (Object dr) with
      | (_, Some e) => (p, dr, None, Some e)
      | (val, None) =>
          match decode (SchemaRef dr) (default [] val) with
          | inl e => (p, dr, None, Some (ErrRegistry e))
          | inr v =>
              match dr_walkNode dr with
              | Some l =>
                  (set_heap (alter (set_value v) l (heap p)) p, dr, Some v, None)
              | None =>
                  let '(p, l) := new_walkNode p in
                  (set_heap (alter (set_value v) l (heap p)) p,
                   mkDynamic (SchemaRef dr) (Object dr) (Some l), Some v, None)
              end
          end
      end
  end.

(** Modelled from the spec: [Dynamic.SetValue], not among the sources.
    "Encodes via the Type Registry, replaces the cached value and the
    target hash"; the bytes are staged with [add], since "writes are
    deferred to Save" and [Save] writes the write buffer only. *)
Definition SetValue (p : Pack) (dr : Dynamic) (o : obj)
  : Pack * Dynamic * option error :=
  match encode o with
  | inl e => (p, dr, Some (ErrRegistry e))
  | inr (sch, val) =>
      let '(p, key) := add p val in
      let p :=
        match dr_walkNode dr with
        | Some l => set_heap (alter (set_value o) l (heap p)) p
        | None => p
        end in
      (p, mkDynamic sch key (dr_walkNode dr), None)
  end.

(** Modelled from the spec: [Dynamic.Attach], "purely bookkeeping": it
    records the index in the node.  The collection argument is left out,
    the Root's reference list being the only one here. *)
Definition Attach (p : Pack) (dr : Dynamic) (i : nat) : Pack :=
  match dr_walkNode dr with
  | Some l => set_heap (alter (set_place (Some i)) l (heap p)) p
  | None => p
  end.

(** Modelled from the spec: [Dynamic.Detach] clears the recorded place. *)
Definition Detach (p : Pack) (dr : Dynamic) : Pack :=
  match dr_walkNode dr with
  | Some l => set_heap (alter (set_place None) l (heap p)) p
  | None => p
  end.

(** *** init, Refs, RefByIndex *)

(** The loop of [Pack.Refs] over the indices of [p.r.Refs].  Its guard
    reads [dr.walkNode] where no [dr] is declared; it is taken to be the
    element at [i], the one the body unpacks. *)
Fixpoint Refs_loop (p : Pack) (idx : list nat) : Pack * option error :=
  match idx with
  | [] => (p, None)
  | i :: rest =>
      let dr := Refs (r p) !!! i in
      match dr_walkNode dr with
      | None =>
          let '(p, dr, _, err) := Value p dr in
          let p := set_Refs (<[i := dr]> (Refs (r p))) p in
          match err with
          | Some e => (p, Some e)
          | None => Refs_loop p rest
          end
      | Some _ => Refs_loop p rest
      end
  end.

(** [Pack.Refs].  The result [drs] is never assigned: it is [nil]. *)
Definition Pack_Refs (p : Pack) : Pack * list Dynamic * option error :=
  let '(p, err) := Refs_loop p (seq 0 (length (Refs (r p)))) in
  (p, [], err).

(** [Pack.init] *)
Definition init (p : Pack) : Pack * option error :=
  if has_flag (flags p) EntireTree then
    let '(p, _, err) := Pack_Refs p in (p, err)
  else (p, None).

(** [Pack.RefByIndex] *)
Definition RefByIndex (p : Pack) (i : Z) : Pack * Dynamic * option error :=
  if (i <? 0) || (i >=? Z.of_nat (length (Refs (r p)))) then
    (p, blank, Some ErrIndexOutOfRange)
  else
    let n := Z.to_nat i in
    let '(p, err) :=
      match dr_walkNode (Refs (r p) !!! n) with
      | None =>
          let '(p, dr, _, err) := Value p (Refs (r p) !!! n) in
          (set_Refs (<[n := dr]> (Refs (r p))) p, err)
      | Some _ => (p, None)
      end in
    (p, Refs (r p) !!! n, err).

(** *** Append and Pop *)

(** The first loop of [Pack.Append]: one fresh node and one [SetValue]
    for each object; it stops at the first error. *)
Fixpoint Append_build (p : Pack) (objs : list obj) (drs : list Dynamic)
  : Pack * list Dynamic * option error :=
  match objs with
  | [] => (p, drs, None)
  | o :: rest =>
      let '(p, l) := new_walkNode p in
      let dr := mkDynamic cipher.zero cipher.zero (Some l) in
      let '(p, dr, err) := SetValue p dr o in
      match err with
      | Some e => (p, drs, Some e)
      | None => Append_build p rest (drs ++ [dr])
      end
  end.

(** The second loop of [Pack.Append], from index [i] on. *)
Fixpoint reattach (p : Pack) (i : nat) (drs : list Dynamic) : Pack :=
  match drs with
  | [] => p
  | dr :: rest =>
      reattach (if unpackedb dr then Attach p dr i else p) (S i) rest
  end.

(** [Pack.Append] *)
Definition Append (p : Pack) (objs : list obj) : Pack * option error :=
  if (length objs =? 0)%nat then (p, None)
  else
    let '(p, drs, err) := Append_build p objs [] in
    match err with
    | Some e => (p, Some e)
    | None =>
        let p := set_Refs (Refs (r p) ++ drs) p in
        (reattach p 0 (Refs (r p)), None)
    end.

(** [Pack.Pop] *)
Definition Pop (p : Pack) : Pack * Dynamic * option error :=
  let n := length (Refs (r p)) in
  if (n =? 0)%nat then (p, blank, None)
  else
    let dr := Refs (r p) !!! (n - 1)%nat in
    let '(p, dr, err) :=
      match dr_walkNode dr with
      | None =>
          let '(p, l) := new_walkNode p in
          let dr := mkDynamic (SchemaRef dr) (Object dr) (Some l) in
          let '(p, dr, _, err) := Value p dr in
          (p, dr, err)
      | Some _ => (Detach p dr, dr, None)
      end in
    let p := set_Refs (<[(n - 1)%nat := blank]> (Refs (r p))) p in
    let p := set_Refs (take (n - 1)%nat (Refs (r p))) p in
    (p, dr, err).

(** *** States of the reference list *)

(** Resolved: the reference has a node and the node holds its value. *)
Definition resolved (p : Pack) (dr : Dynamic) : Prop := is_Some (cached p dr).

(** A Pack as it is opened over a stored Root: every reference is as
    decoded, a pair of hashes without a node. *)
Definition just_opened (p : Pack) : Prop :=
  Forall (λ d, dr_walkNode d = None) (Refs (r p)).

(** The node addresses held by a list of references. *)
Definition pointers (drs : list Dynamic) : list ptr := omap dr_walkNode drs.

(** No two references of the Root share a node, and every node address
    is allocated.  The Pack's own operations keep it so. *)
Definition nodes_wf (p : Pack) : Prop :=
  NoDup (pointers (Refs (r p)))
  ∧ Forall (λ l, (l < length (heap p))%nat) (pointers (Refs (r p))).

(** Every reference of the Root that has a node holds its value. *)
Definition nodes_filled (p : Pack) : Prop :=
  Forall (λ d, unpacked d → resolved p d) (Refs (r p)).

(** *** Sessions *)

(** The calls a client makes on an open Pack. *)
Inductive Call :=
| CallAppend (objs : list obj)
| CallPop
| CallRefByIndex (i : Z)
| CallRefs
| CallSave (now : Z).

(** The Pack after one call, whatever the call returned. *)
Definition after (p : Pack) (cl : Call) : Pack :=
  match cl with
  | CallAppend objs => (Append p objs).1
  | CallPop => (Pop p).1.1
  | CallRefByIndex i => (RefByIndex p i).1.1
  | CallRefs => (Pack_Refs p).1.1
  | CallSave now => (Save now p).1.1
  end.

(** The Pack after [init] and a sequence of calls. *)
Definition session (p : Pack) (calls : list Call) : Pack :=
  foldl after (init p).1 calls.

(** *** More of the Pack *)

(** [Pack.unpack].  [unpackToGo] is not among the sources and is taken as
    given, as is the name [sch.Name()] of the schema; the [else] branch
    is [panic("not implemented yet")]. *)
Definition unpack (unpackToGo : string → bytes → option obj * option error)
    (p : Pack) (name : string) (hash : SHA256)
  : outcome (option obj * option error) :=
  match get p hash with
  | (_, Some e) => Returns (None, Some e)
  | (val, None) =>
      if has_flag (flags p) GoTypes then
        Returns (unpackToGo name (default [] val))
      else Panics
  end.

(** [Pack.Dynamic]: a fresh node, then [SetValue], whose error is
    dropped. *)
Definition Pack_Dynamic (p : Pack) (o : obj) : Pack * Dynamic :=
  let '(p, l) := new_walkNode p in
  let dr := mkDynamic cipher.zero cipher.zero (Some l) in
  let '(p, dr, _) := SetValue p dr o in
  (p, dr).

(** The pairs of hashes the Root refers to, in order. *)
Definition hashes (p : Pack) : list (SHA256 * SHA256) :=
  (λ d, (SchemaRef d, Object d)) <$> Refs (r p).

(** The pair of hashes [SetValue] gives a reference for an object. *)
Definition ref_of (o : obj) : option (SHA256 * SHA256) :=
  match encode o with
  | inl _ => None
  | inr (sch, val) => Some (sch, SumSHA256 val)
  end.

(** [n] calls of [Pop] in a row, results dropped. *)
Definition pops (n : nat) (p : Pack) : Pack :=
  Nat.iter n (λ q, (Pop q).1.1) p.

(** The backend serves read-only transactions. *)
Definition views_work (p : Pack) : Prop := fault (c p) ≠ FailView.

(** The calls that are a [Save]. *)
Definition is_save (cl : Call) : bool :=
  match cl with CallSave _ => true | _ => false end.

(** The five flags of the [const] block. *)
Definition all_flags : list Flag :=
  [EntireMerkleTrees; EntireTree; HashTableIndex; ViewOnly; GoTypes].

(** The bytes [SetValue] stages for an object. *)
Definition bytes_of (o : obj) : option bytes :=
  match encode o with
  | inl _ => None
  | inr (_, val) => Some val
  end.

(** One [add] seen from the write buffer. *)
Definition stage (m : gmap SHA256 bytes) (val : bytes) : gmap SHA256 bytes :=
  <[SumSHA256 val := val]> m.

End pack.

(** ** A small instance, for running the definitions *)

(** Objects are their own encoding, under schema 7; the empty object is
    not registered; the hash is simple enough to read off. *)
Definition toy : Services := {|
  obj := bytes;
  SumSHA256 := λ b, (N.of_nat (length b) + 100)%N;
  encode := λ v,
    if (length v =? 0)%nat then inl UnregisteredType else inr (7%N, v);
  decode := λ _ b, inr b
|}.

Definition obj_a : bytes := [x01]%byte.
Definition obj_b : bytes := [x02; x02]%byte.
Definition obj_c : bytes := [x03; x03; x03]%byte.

(** A Pack on an empty Root over an empty store. *)
Definition empty_pack : @Pack toy :=
  mkPack (mkDB ∅ NoFault) (mkRoot 0 0 []) Default ∅ ∅ [].

(** The same after [Append(a, b, c)]. *)
Definition abc_pack : @Pack toy := (Append empty_pack [obj_a; obj_b; obj_c]).1.

(** The same over a backend that fails while writing the second entry. *)
Definition abc_failing : @Pack toy := set_c (mkDB ∅ (FailSetMap 1)) abc_pack.

(** A view-only Pack with staged objects. *)
Definition abc_view_only : @Pack toy :=
  mkPack (c abc_pack) (r abc_pack) (Z.lor Default ViewOnly)
         (unsaved abc_pack) (cache abc_pack) (heap abc_pack).

(** A Pack just opened over a stored Root with two references. *)
Definition two_refs (fl : Flag) : @Pack toy :=
  mkPack (mkDB (<[101%N := obj_a]> (<[102%N := obj_b]> ∅)) NoFault)
         (mkRoot 4 0 [mkDynamic 7%N 101%N None; mkDynamic 7%N 102%N None])
         fl ∅ ∅ [].

(** A Container over an empty store, with an encoder that writes the
    schema key in one byte before the data. *)
Definition toy_encoder : skyobjects.Encoder := {|
  skyobjects.SumSHA256 := λ b, (N.of_nat (length b) + 100)%N;
  skyobjects.Serialize := λ h,
    default x00%byte (Byte.of_N (skyobjects.SchemaKey h)) :: skyobjects.Data h;
  skyobjects.DeserializeRaw := λ b,
    match b with
    | [] => None
    | k :: d => Some (skyobjects.mkhref (Byte.to_N k) d)
    end
|}.

Definition empty_container : @skyobjects.Container :=
  skyobjects.NewContainer (mkDB ∅ NoFault).

(** A Pack just opened over a Root whose second reference points to an
    object the store does not hold. *)
Definition dangling : @Pack toy :=
  mkPack (mkDB (<[101%N := obj_a]> ∅) NoFault)
         (mkRoot 0 0 [mkDynamic 7%N 101%N None; mkDynamic 7%N 999%N None])
         Default ∅ ∅ [].

(** An [unpackToGo] for the small instance: the bytes themselves. *)
Definition toy_unpackToGo (name : string) (val : bytes)
  : option (@obj toy) * option (@error) :=
  (Some val, None).

(** A session on a view-only Pack that appends, saves and pops. *)
Definition busy_calls : list (@Call toy) :=
  [@CallAppend toy [obj_b]; CallSave 3; CallRefByIndex 0; CallPop; CallRefs].

(** ** Properties *)

Section pack_facts.

Context `{Services}.

Implicit Types (p : Pack) (dr : Dynamic) (key : SHA256) (val : bytes).

(** *** The write buffer *)

Lemma get_unsaved p key val :
  unsaved p !! key = Some val → get p key = (Some val, None).
Proof. intros Hk. unfold get. by rewrite Hk. Qed.

(** C4. Content addressing in the Pack: reading back the key that [add]
    returns gives the bytes added, and adding the same bytes again returns
    the same key and leaves the Pack, hence the write buffer and its size,
    as the first [add] left it. *)
Theorem add_get_idempotent p val :
  get (add p val).1 (add p val).2 = (Some val, None)
  ∧ (add (add p val).1 val).2 = (add p val).2
  ∧ (add (add p val).1 val).1 = (add p val).1
  ∧ size (unsaved (add (add p val).1 val).1) = size (unsaved (add p val).1).
Proof.
  assert (Hsame : (add (add p val).1 val).1 = (add p val).1).
  { unfold add, set, set_unsaved; simpl. by rewrite insert_insert_eq. }
  split_and!.
  - apply get_unsaved. unfold add, set; simpl. apply lookup_insert_eq.
  - reflexivity.
  - exact Hsame.
  - by rewrite Hsame.
Qed.

(** *** Save *)

Lemma migrate_fold (l : list (SHA256 * bytes)) p :
  let p' := foldl migrate_step p l in
  c p' = c p ∧ r p' = r p ∧ flags p' = flags p ∧ heap p' = heap p
  ∧ unsaved p' = foldl (λ m kv, delete kv.1 m) (unsaved p) l
  ∧ cache p' = foldl (λ m kv, <[kv.1 := kv.2]> m) (cache p) l.
Proof.
  revert p. induction l as [|kv l IH]; intros p; simpl; [done|].
  destruct (IH (migrate_step p kv)) as (-> & -> & -> & -> & -> & ->).
  done.
Qed.

Lemma foldl_delete_absent (l : list (SHA256 * bytes)) (m : gmap SHA256 bytes) k :
  m !! k = None → foldl (λ m kv, delete kv.1 m) m l !! k = None.
Proof.
  revert m. induction l as [|[k0 v0] l IH]; intros m Hk; [done|].
  cbn [foldl]. apply IH. rewrite lookup_delete_None. by right.
Qed.

Lemma foldl_delete_visited (l : list (SHA256 * bytes)) (m : gmap SHA256 bytes) k :
  k ∈ l.*1 → foldl (λ m kv, delete kv.1 m) m l !! k = None.
Proof.
  revert m. induction l as [|[k0 v0] l IH]; intros m Hk.
  - by apply elem_of_nil in Hk.
  - rewrite fmap_cons in Hk. cbn [foldl].
    apply elem_of_cons in Hk as [->|Hk]; [|by apply IH].
    apply foldl_delete_absent, lookup_delete_eq.
Qed.

Lemma foldl_insert_lookup (l : list (SHA256 * bytes)) (m : gmap SHA256 bytes) k :
  NoDup l.*1 →
  foldl (λ m kv, <[kv.1 := kv.2]> m) m l !! k
  = (list_to_map l ∪ m : gmap SHA256 bytes) !! k.
Proof.
  revert m. induction l as [|[k0 v0] l IH]; intros m Hnd.
  - by rewrite list_to_map_nil, (left_id_L ∅ (∪)).
  - rewrite fmap_cons in Hnd. apply NoDup_cons in Hnd as [Hk0 Hnd].
    cbn [foldl fst snd]. rewrite IH by done.
    apply (not_elem_of_list_to_map (M := gmap SHA256)) in Hk0.
    rewrite list_to_map_cons, !lookup_union. cbn [fst snd] in *.
    destruct (decide (k = k0)) as [->|Hne].
    + rewrite Hk0, !lookup_insert_eq. by destruct (m !! k0).
    + by rewrite !lookup_insert_ne.
Qed.

Lemma migrate_spec p :
  let p' := migrate p in
  c p' = c p ∧ r p' = r p ∧ flags p' = flags p ∧ heap p' = heap p
  ∧ unsaved p' = ∅ ∧ cache p' = unsaved p ∪ cache p.
Proof.
  unfold migrate.
  destruct (migrate_fold (map_to_list (unsaved p)) p)
    as (-> & -> & -> & -> & -> & ->).
  split_and!; try done.
  - apply map_eq; intros k. rewrite lookup_empty.
    destruct (unsaved p !! k) as [v|] eqn:Hv.
    + apply foldl_delete_visited, list_elem_of_fmap.
      exists (k, v). split; [done|]. by apply elem_of_map_to_list.
    + by apply foldl_delete_absent.
  - apply map_eq; intros k.
    rewrite foldl_insert_lookup by apply NoDup_fst_map_to_list.
    by rewrite list_to_map_to_list.
Qed.

Lemma Update_save_tx (db db' : DB) p (err : option TxError) :
  Update db (save_tx p) = (db', err) →
  (err = None ∧ objects db' = unsaved p ∪ objects db ∧ fault db' = fault db)
  ∨ (is_Some err ∧ db' = db).
Proof.
  unfold Update, save_tx, SetMap.
  destruct (size (unsaved p) =? 0)%nat eqn:Hsz.
  - apply Nat.eqb_eq, map_size_empty_iff in Hsz. rewrite Hsz, (left_id_L ∅ (∪)).
    destruct (fault db); intros [= <- <-]; eauto.
  - destruct (fault db); simpl; intros [= <- <-]; eauto.
Qed.

Lemma Save_inv now p p' root err :
  Save now p = (p', root, err) →
  root = zeroRootPack ∧ flags p' = flags p ∧ heap p' = heap p
  ∧ Seq (r p') = Seq (r p) ∧ Refs (r p') = Refs (r p)
  ∧ ((err = Some ErrViewOnlyTree ∧ has_flag (flags p) ViewOnly = true ∧ p' = p)
     ∨ (is_Some err ∧ err ≠ Some ErrViewOnlyTree
        ∧ has_flag (flags p) ViewOnly = false ∧ Time (r p') = now
        ∧ c p' = c p ∧ unsaved p' = unsaved p ∧ cache p' = cache p)
     ∨ (err = None ∧ has_flag (flags p) ViewOnly = false ∧ Time (r p') = now
        ∧ objects (c p') = unsaved p ∪ objects (c p)
        ∧ unsaved p' = ∅ ∧ cache p' = unsaved p ∪ cache p)).
Proof.
  unfold Save. destruct (has_flag (flags p) ViewOnly) eqn:Hv.
  { intros [= <- <- <-]. split_and!; try done. by left. }
  destruct (Update (c (set_Time now p)) (save_tx (set_Time now p)))
    as [db e] eqn:Hup.
  apply Update_save_tx in Hup as [(-> & Hobj & _)|([e' ->] & ->)].
  - intros [= <- <- <-].
    destruct (migrate_spec (set_c db (set_Time now p)))
      as (Hc & Hr & Hf & Hh & Hu & Hca).
    rewrite Hr, Hf, Hh, Hc, Hu, Hca. split_and!; try done.
    right; right. by split_and!.
  - intros [= <- <- <-]. split_and!; try done.
    right; left. by split_and!.
Qed.

(** C1. Save atomicity: when the transaction of [Save] fails, the write
    buffer (and with it the store and the read cache) is as it was before
    the call; when [Save] succeeds, every staged entry is in the read
    cache, the write buffer is empty, and the store holds the whole
    buffer. *)
Theorem Save_atomic now p p' root err :
  Save now p = (p', root, err) →
  (∀ e, err = Some (ErrTx e) →
     unsaved p' = unsaved p ∧ objects (c p') = objects (c p)
     ∧ cache p' = cache p)
  ∧ (err = None →
     (∀ key val, unsaved p !! key = Some val → cache p' !! key = Some val)
     ∧ unsaved p' = ∅
     ∧ objects (c p') = unsaved p ∪ objects (c p)).
Proof.
  intros Hs. apply Save_inv in Hs as (_ & _ & _ & _ & _ & Hcases).
  destruct Hcases as [(-> & _ & ->)|[(Herr & _ & _ & _ & Hc & Hu & Hca)
                                    |(-> & _ & _ & Hobj & Hu & Hca)]].
  - split; [done|]. intros [=].
  - split; [|intros ->; by destruct Herr]. intros e _. by rewrite Hc.
  - split; [intros e [=]|]. intros _. split_and!; try done.
    intros key val Hk. rewrite Hca. by apply lookup_union_Some_l.
Qed.

(** After a failed [Save], a [Save] over a backend that works again
    commits the whole of the buffer that was staged. *)
Lemma Save_retry now now' p p1 root e db p2 root' :
  Save now p = (p1, root, Some (ErrTx e)) →
  Save now' (set_c db p1) = (p2, root', None) →
  objects (c p2) = unsaved p ∪ objects db ∧ unsaved p2 = ∅.
Proof.
  intros Hfail Hok.
  apply Save_inv in Hfail as (_ & _ & _ & _ & _ & Hfail).
  apply Save_inv in Hok as (_ & _ & _ & _ & _ & Hok).
  destruct Hfail as [(_ & _ & ->)|[(_ & _ & _ & _ & _ & Hu & _)|([=] & _)]];
    destruct Hok as [([=] & _)|[([? [=]] & _)|(_ & _ & _ & Hobj & Hempty & _)]];
    simpl in *; [done|]. by rewrite Hobj, Hu.
Qed.

(** No call of [Save] changes the sequence number of the Root. *)
Lemma Save_Seq now p : Seq (r (Save now p).1.1) = Seq (r p).
Proof.
  destruct (Save now p) as [[p' root] err] eqn:Hs.
  by apply Save_inv in Hs as (_ & _ & _ & Hseq & _).
Qed.

(** [Save] returns the zero [RootPack], whatever happened. *)
Lemma Save_root now p : (Save now p).1.2 = zeroRootPack.
Proof.
  destruct (Save now p) as [[p' root] err] eqn:Hs.
  by apply Save_inv in Hs as (Hroot & _).
Qed.

(** X20. What [Save] writes are the staged objects and nothing else:
    whatever [Save] returns, a key that is not staged reads from the
    store as before, present or absent. *)
Lemma Save_store now p key :
  unsaved p !! key = None →
  objects (c (Save now p).1.1) !! key = objects (c p) !! key.
Proof.
  intros Hk. destruct (Save now p) as [[p' root] err] eqn:Hs.
  apply Save_inv in Hs as (_ & _ & _ & _ & _ & Hcases). simpl.
  destruct Hcases as [(_ & _ & ->)|[(_ & _ & _ & _ & -> & _)
                                   |(_ & _ & _ & -> & _)]]; try done.
  by rewrite lookup_union_r.
Qed.

(** C7. View-only enforcement: with [ViewOnly] among the flags, [Save]
    returns [ErrViewOnlyTree] and the Pack, its store included, is exactly
    as before: no transaction runs. *)
Theorem Save_view_only now p :
  Z.land (flags p) ViewOnly ≠ 0 →
  Save now p = (p, zeroRootPack, Some ErrViewOnlyTree)
  ∧ c (Save now p).1.1 = c p.
Proof.
  intros Hv. unfold Save, has_flag.
  destruct (Z.eqb_spec (Z.land (flags p) ViewOnly) 0); [done|]. done.
Qed.

(** *** The reference model *)

Lemma get_error p key (val : option bytes) e :
  get p key = (val, Some e) → e ≠ ErrIndexOutOfRange ∧ e ≠ ErrViewOnlyTree.
Proof.
  unfold get, View, lift_err.
  destruct (unsaved p !! key); [intros [=]|].
  unfold Get. destruct (fault (c p)); simpl;
    destruct (objects (c p) !! key); intros [= <- <-]; done.
Qed.

Ltac Value_cases :=
  unfold Value, new_walkNode; repeat case_match; intros; simplify_eq/=.

(** [Value] touches the heap of walk nodes and nothing else. *)
Lemma Value_frame p dr p' dr' v err :
  Value p dr = (p', dr', v, err) →
  c p' = c p ∧ r p' = r p ∧ flags p' = flags p
  ∧ unsaved p' = unsaved p ∧ cache p' = cache p
  ∧ SchemaRef dr' = SchemaRef dr ∧ Object dr' = Object dr.
Proof. Value_cases; done. Qed.

(** A failed [Value] changes nothing, and its error is a lookup or a
    decoding error. *)
Lemma Value_fail p dr p' dr' v e :
  Value p dr = (p', dr', v, Some e) →
  p' = p ∧ dr' = dr ∧ v = None
  ∧ e ≠ ErrIndexOutOfRange ∧ e ≠ ErrViewOnlyTree.
Proof.
  Value_cases; split_and!; try done;
    match goal with Hg : get _ _ = _ |- _ => by apply get_error in Hg as [] end.
Qed.

(** A successful [Value] on an Unresolved reference allocates one node,
    which holds the value, and points the reference to it. *)
Lemma Value_ok_nil p dr p' dr' v :
  dr_walkNode dr = None →
  Value p dr = (p', dr', v, None) →
  ∃ o, v = Some o
       ∧ dr' = mkDynamic (SchemaRef dr) (Object dr) (Some (length (heap p)))
       ∧ heap p' = heap p ++ [mkWalkNode (Some o) None].
Proof.
  intros Hnil. unfold Value.
  assert (cached p dr = None) as -> by (unfold cached, node; by rewrite Hnil).
  rewrite Hnil. Value_cases. eexists; split_and!; try done.
  by rewrite alter_app_r_alt, Nat.sub_diag by lia.
Qed.

(** A successful [Value] on a reference that has a node leaves the
    reference alone; the heap keeps its length and its other nodes, and
    every node keeps its place. *)
Lemma Value_ok_node p dr l p' dr' v :
  dr_walkNode dr = Some l →
  Value p dr = (p', dr', v, None) →
  dr' = dr ∧ length (heap p') = length (heap p)
  ∧ (∀ l', l' ≠ l → heap p' !! l' = heap p !! l')
  ∧ (∀ l', place <$> heap p' !! l' = place <$> heap p !! l')
  ∧ ((l < length (heap p))%nat → is_Some (cached p' dr)).
Proof.
  intros Hl. unfold Value.
  destruct (cached p dr) as [o|] eqn:Hc.
  { intros [= <- <- <-]. split_and!; try done. }
  rewrite Hl. unfold cached, node.
  destruct (get p (Object dr)) as [val [e|]]; [intros [=]|].
  destruct (decode (SchemaRef dr) (default [] val)) as [e|o]; [intros [=]|].
  intros [= <- <- <-]. simpl. split_and!; try done.
  - apply length_alter.
  - intros l' Hne. by apply list_lookup_alter_ne.
  - intros l'. destruct (decide (l = l')) as [<-|Hne];
      [rewrite list_lookup_alter_eq | by rewrite list_lookup_alter_ne].
    by destruct (heap p !! l).
  - intros Hlt. rewrite Hl. simpl. rewrite list_lookup_alter_eq.
    apply lookup_lt_is_Some in Hlt as [wn ->]. simpl. eauto.
Qed.

(** *** Pop *)

(** C8. On an empty reference list [Pop] returns the blank [Dynamic] and
    no error, and changes nothing: the list stays empty. *)
Theorem Pop_empty p :
  Refs (r p) = [] →
  Pop p = (p, blank, None) ∧ Refs (r (Pop p).1.1) = [].
Proof. intros Hnil. unfold Pop. rewrite Hnil. done. Qed.

(** What [Pop] does to the Root: it drops the last reference. *)
Lemma Pop_r p :
  r (Pop p).1.1
  = mkRoot (Seq (r p)) (Time (r p))
           (take (length (Refs (r p)) - 1) (Refs (r p))).
Proof.
  unfold Pop. destruct (length (Refs (r p)) =? 0)%nat eqn:Hn.
  { apply Nat.eqb_eq, nil_length_inv in Hn. rewrite Hn. simpl.
    by destruct (r p); simplify_eq/=. }
  set (n := (length (Refs (r p)) - 1)%nat).
  destruct (dr_walkNode (Refs (r p) !!! n)) as [l|] eqn:Hl.
  - simpl. unfold Detach. rewrite Hl. simpl. by rewrite take_insert_ge.
  - destruct (Value (new_walkNode p).1
                (mkDynamic (SchemaRef (Refs (r p) !!! n))
                           (Object (Refs (r p) !!! n))
                           (Some (new_walkNode p).2)))
      as [[[q dr] v] err] eqn:Hv.
    unfold new_walkNode in *. simpl in *. rewrite Hv.
    apply Value_frame in Hv as (_ & Hq & _). simpl in *.
    rewrite Hq. by rewrite take_insert_ge.
Qed.

(** C10. On a reference list of length [n > 0], [Pop] leaves a list of
    length [n - 1] that is the old one without its last entry: the entries
    at positions [0] to [n - 2] are the same, hashes included. *)
Theorem Pop_frame p :
  Refs (r p) ≠ [] →
  let refs' := Refs (r (Pop p).1.1) in
  length refs' = (length (Refs (r p)) - 1)%nat
  ∧ refs' = take (length (Refs (r p)) - 1) (Refs (r p))
  ∧ ∀ i, (i < length (Refs (r p)) - 1)%nat →
         refs' !! i = Refs (r p) !! i
         ∧ Object <$> refs' !! i = Object <$> Refs (r p) !! i
         ∧ SchemaRef <$> refs' !! i = SchemaRef <$> Refs (r p) !! i.
Proof.
  intros Hne. simpl. rewrite Pop_r. simpl. split_and!.
  - rewrite length_take. lia.
  - done.
  - intros i Hi. by rewrite lookup_take_lt.
Qed.

(** *** RefByIndex *)

Lemma RefByIndex_out p i :
  ¬ (0 ≤ i < Z.of_nat (length (Refs (r p)))) →
  RefByIndex p i = (p, blank, Some ErrIndexOutOfRange).
Proof.
  intros Hout. unfold RefByIndex. rewrite Z.geb_leb.
  destruct (Z.ltb_spec i 0); [done|].
  destruct (Z.leb_spec (Z.of_nat (length (Refs (r p)))) i); [done|lia].
Qed.

Lemma RefByIndex_in p i d :
  0 ≤ i < Z.of_nat (length (Refs (r p))) →
  Refs (r p) !! Z.to_nat i = Some d →
  RefByIndex p i
  = match dr_walkNode d with
    | Some _ => (p, d, None)
    | None =>
        let '(q, d', _, err) := Value p d in
        (set_Refs (<[Z.to_nat i := d']> (Refs (r p))) q, d', err)
    end.
Proof.
  intros Hin Hd. unfold RefByIndex. rewrite Z.geb_leb.
  destruct (Z.ltb_spec i 0); [lia|].
  destruct (Z.leb_spec (Z.of_nat (length (Refs (r p)))) i); [lia|].
  simpl. rewrite (list_lookup_total_correct _ _ _ Hd).
  destruct (dr_walkNode d) as [l|] eqn:Hl.
  - by rewrite (list_lookup_total_correct _ _ _ Hd).
  - destruct (Value p d) as [[[q d'] v] err] eqn:Hv.
    apply Value_frame in Hv as (_ & Hq & _). simpl. rewrite Hq.
    by rewrite list_lookup_total_insert_eq by lia.
Qed.

(** C9. [RefByIndex] fails with [ErrIndexOutOfRange] exactly when the index
    is outside [0, len(refs)); inside the range it returns the reference
    stored at that index, with the hashes of the entry that was there, and
    its only possible error is that of resolving this entry. *)
Theorem RefByIndex_range p i :
  ((RefByIndex p i).2 = Some ErrIndexOutOfRange
   ↔ ¬ (0 ≤ i < Z.of_nat (length (Refs (r p)))))
  ∧ (0 ≤ i < Z.of_nat (length (Refs (r p))) →
     ∃ d, Refs (r p) !! Z.to_nat i = Some d
          ∧ Refs (r (RefByIndex p i).1.1) !! Z.to_nat i
            = Some (RefByIndex p i).1.2
          ∧ Object (RefByIndex p i).1.2 = Object d
          ∧ SchemaRef (RefByIndex p i).1.2 = SchemaRef d
          ∧ (RefByIndex p i).2
            = if unpackedb d then None else (Value p d).2).
Proof.
  assert (Hin : 0 ≤ i < Z.of_nat (length (Refs (r p))) →
     ∃ d, Refs (r p) !! Z.to_nat i = Some d
          ∧ Refs (r (RefByIndex p i).1.1) !! Z.to_nat i
            = Some (RefByIndex p i).1.2
          ∧ Object (RefByIndex p i).1.2 = Object d
          ∧ SchemaRef (RefByIndex p i).1.2 = SchemaRef d
          ∧ (RefByIndex p i).2
            = if unpackedb d then None else (Value p d).2).
  { intros Hi.
    destruct (lookup_lt_is_Some_2 (Refs (r p)) (Z.to_nat i)) as [d Hd]; [lia|].
    exists d. split; [done|]. rewrite (RefByIndex_in p i d Hi Hd).
    unfold unpackedb. destruct (dr_walkNode d) as [l|] eqn:Hl; [done|].
    destruct (Value p d) as [[[q d'] v] err] eqn:Hv.
    apply Value_frame in Hv as (_ & Hq & _ & _ & _ & Hs & Ho). simpl.
    split_and!; try done. apply list_lookup_insert_eq. lia. }
  split; [|exact Hin]. split.
  - intros Herr Hi. destruct (Hin Hi) as (d & Hd & _ & _ & _ & He).
    rewrite Herr in He. unfold unpackedb in He.
    destruct (dr_walkNode d); [done|].
    destruct (Value p d) as [[[q d'] v] err] eqn:Hv. simpl in He. subst err.
    by apply Value_fail in Hv as (_ & _ & _ & Hne & _).
  - intros Hout. by rewrite RefByIndex_out.
Qed.

(** *** Refs and init *)

Lemma unpackedb_spec dr : unpackedb dr = true ↔ unpacked dr.
Proof.
  unfold unpackedb, unpacked. destruct (dr_walkNode dr); split; eauto; try done.
Qed.

Lemma resolved_unpacked p dr : resolved p dr → unpacked dr.
Proof.
  unfold resolved, cached, node, unpacked.
  destruct (dr_walkNode dr); [eauto|]. by intros [? [=]].
Qed.

(** Growing the heap at its end keeps resolved references resolved. *)
Lemma resolved_app p q dr ext :
  heap q = heap p ++ ext → resolved p dr → resolved q dr.
Proof.
  unfold resolved, cached, node. intros ->.
  destruct (dr_walkNode dr) as [l|]; simpl; [|done].
  destruct (heap p !! l) as [wn|] eqn:Hl; simpl; [|by intros [? [=]]].
  by rewrite (lookup_app_l_Some _ _ _ _ Hl).
Qed.

(** One successful turn of the loop on an Unresolved entry. *)
Lemma Value_step_filled p i d q d' v :
  Refs (r p) !! i = Some d → dr_walkNode d = None →
  Value p d = (q, d', v, None) →
  nodes_filled p →
  let p1 := set_Refs (<[i := d']> (Refs (r p))) q in
  nodes_filled p1 ∧ resolved p1 d' ∧ Refs (r p1) = <[i := d']> (Refs (r p)).
Proof.
  intros Hd Hnil Hv Hfill. simpl.
  destruct (Value_ok_nil _ _ _ _ _ Hnil Hv) as (o & -> & -> & Hheap).
  assert (Hd' : resolved (set_Refs (<[i := mkDynamic (SchemaRef d) (Object d)
                   (Some (length (heap p)))]> (Refs (r p))) q)
                 (mkDynamic (SchemaRef d) (Object d) (Some (length (heap p))))).
  { unfold resolved, cached, node. simpl. rewrite Hheap.
    rewrite lookup_app_r, Nat.sub_diag by lia. simpl. eauto. }
  split_and!; [|done|done].
  unfold nodes_filled. simpl. apply Forall_insert; [|done].
  eapply Forall_impl; [exact Hfill|]. intros x Hx Hu.
  eapply (resolved_app p); [exact Hheap|]. by apply Hx.
Qed.

Lemma Refs_loop_ok idx : ∀ p p',
  nodes_filled p →
  Refs_loop p idx = (p', None) →
  nodes_filled p'
  ∧ length (Refs (r p')) = length (Refs (r p))
  ∧ (∀ i d, Refs (r p) !! i = Some d → unpacked d → Refs (r p') !! i = Some d)
  ∧ (∀ i, i ∈ idx → (i < length (Refs (r p)))%nat →
          unpacked (Refs (r p') !!! i)).
Proof.
  induction idx as [|i rest IH]; intros p p' Hfill; simpl.
  { intros [= <-]. split_and!; try done. intros i Hi. by apply elem_of_nil in Hi. }
  destruct (dr_walkNode (Refs (r p) !!! i)) as [l|] eqn:Hl.
  - intros Hloop. destruct (IH _ _ Hfill Hloop) as (Hf' & Hlen & Hkeep & Hidx).
    split_and!; try done. intros j Hj Hlt.
    apply elem_of_cons in Hj as [->|Hj]; [|by apply Hidx].
    destruct (lookup_lt_is_Some_2 (Refs (r p)) i Hlt) as [d Hd].
    rewrite (list_lookup_total_correct _ _ _ Hd) in Hl.
    assert (Hu : unpacked d) by (unfold unpacked; eauto).
    by rewrite (list_lookup_total_correct _ _ _ (Hkeep _ _ Hd Hu)).
  - destruct (Value p (Refs (r p) !!! i)) as [[[q d'] v] [e|]] eqn:Hv;
      [intros [=]|].
    intros Hloop.
    pose proof (Value_frame _ _ _ _ _ _ Hv) as (_ & Hq & _).
    rewrite Hq in Hloop.
    destruct (decide (i < length (Refs (r p)))%nat) as [Hlt|Hge].
    + destruct (lookup_lt_is_Some_2 (Refs (r p)) i Hlt) as [d Hd].
      rewrite (list_lookup_total_correct _ _ _ Hd) in Hl, Hv.
      destruct (Value_step_filled _ _ _ _ _ _ Hd Hl Hv Hfill)
        as (Hf1 & Hres & Hrefs).
      destruct (IH _ _ Hf1 Hloop) as (Hf' & Hlen & Hkeep & Hidx).
      rewrite Hrefs, length_insert in Hlen, Hidx. rewrite Hrefs in Hkeep.
      split_and!; try done.
      * intros j x Hx Hu. apply Hkeep; [|done].
        destruct (decide (j = i)) as [->|Hne].
        -- rewrite Hd in Hx. injection Hx as <-.
           unfold unpacked in Hu. rewrite Hl in Hu. by destruct Hu.
        -- by rewrite list_lookup_insert_ne.
      * intros j Hj Hjlt. apply elem_of_cons in Hj as [->|Hj]; [|by apply Hidx].
        erewrite list_lookup_total_correct;
          [exact (resolved_unpacked _ _ Hres)|].
        apply Hkeep; [|exact (resolved_unpacked _ _ Hres)].
        by apply list_lookup_insert_eq.
    + (* the loop never visits such an index; the turn changes no entry *)
      rewrite list_lookup_total_alt in Hl, Hv.
      rewrite (lookup_ge_None_2 (Refs (r p)) i) in Hl, Hv by lia. simpl in *.
      destruct (Value_ok_nil _ blank _ _ _ eq_refl Hv) as (o & _ & _ & Hheap).
      assert (Hf1 : nodes_filled (set_Refs (<[i := d']> (Refs (r p))) q)).
      { unfold nodes_filled. simpl. rewrite list_insert_ge by lia.
        eapply Forall_impl; [exact Hfill|]. intros x Hx Hu.
        eapply (resolved_app p); [exact Hheap|]. by apply Hx. }
      destruct (IH _ _ Hf1 Hloop) as (Hf' & Hlen & Hkeep & Hidx).
      simpl in *. rewrite list_insert_ge in Hlen, Hkeep, Hidx by lia.
      split_and!; try done.
      intros j Hj Hjlt. apply elem_of_cons in Hj as [->|Hj]; [lia|by apply Hidx].
Qed.

(** When every visited entry has a node, the loop changes nothing. *)
Lemma Refs_loop_unpacked idx p :
  (∀ i, i ∈ idx → unpacked (Refs (r p) !!! i)) →
  Refs_loop p idx = (p, None).
Proof.
  induction idx as [|i rest IH]; intros Hall; simpl; [done|].
  destruct (Hall i) as [l ->]; [left|]. apply IH.
  intros j Hj. apply Hall. by right.
Qed.

(** A successful [Pack.Refs] leaves every reference of the Root resolved,
    provided those that already had a node held their value. *)
Lemma Pack_Refs_resolves p p' drs :
  nodes_filled p →
  Pack_Refs p = (p', drs, None) →
  Forall (resolved p') (Refs (r p')) ∧ nodes_filled p'
  ∧ length (Refs (r p')) = length (Refs (r p)).
Proof.
  intros Hfill. unfold Pack_Refs.
  destruct (Refs_loop p (seq 0 (length (Refs (r p))))) as [q err] eqn:Hloop.
  intros [= -> <- ->].
  destruct (Refs_loop_ok _ _ _ Hfill Hloop) as (Hf' & Hlen & Hkeep & Hidx).
  split_and!; try done.
  apply Forall_lookup_2. intros i d Hd.
  pose proof (lookup_lt_Some _ _ _ Hd) as Hlt. rewrite Hlen in Hlt.
  assert (Hu : unpacked (Refs (r p') !!! i)).
  { apply Hidx; [|done]. apply elem_of_seq. lia. }
  rewrite (list_lookup_total_correct _ _ _ Hd) in Hu.
  unfold nodes_filled in Hf'. rewrite Forall_lookup in Hf'. by eapply Hf'.
Qed.

Lemma just_opened_filled p : just_opened p → nodes_filled p.
Proof.
  unfold just_opened, nodes_filled. intros Ho.
  eapply Forall_impl; [exact Ho|]. intros d Hd [l Hl]. congruence.
Qed.

(** [get] reads the write buffer and the store, nothing else. *)
Lemma get_frame p q key :
  unsaved q = unsaved p → c q = c p → get q key = get p key.
Proof. intros Hu Hc. unfold get. by rewrite Hu, Hc. Qed.

(** [Value] succeeds on an Unresolved reference whose object [get] finds
    and the registry decodes, and caches the decoded value. *)
Lemma Value_succeeds p dr val o :
  dr_walkNode dr = None →
  get p (Object dr) = (Some val, None) →
  decode (SchemaRef dr) val = inr o →
  ∃ q d', Value p dr = (q, d', Some o, None) ∧ cached q d' = Some o.
Proof.
  intros Hnil Hget Hdec. unfold Value.
  assert (cached p dr = None) as -> by (unfold cached, node; by rewrite Hnil).
  rewrite Hget. simpl. rewrite Hdec, Hnil. simpl.
  eexists _, _. split; [reflexivity|].
  unfold cached, node. simpl.
  rewrite list_lookup_alter_eq, lookup_app_r, Nat.sub_diag by lia. done.
Qed.

(** The loop of [Refs] succeeds when every entry it visits has a walk
    node already or can be resolved. *)
Lemma Refs_loop_succeeds idx : ∀ p,
  (∀ i, i ∈ idx → (i < length (Refs (r p)))%nat) →
  Forall (λ d, unpacked d
               ∨ ∃ val o, get p (Object d) = (Some val, None)
                          ∧ decode (SchemaRef d) val = inr o)
         (Refs (r p)) →
  (Refs_loop p idx).2 = None.
Proof.
  induction idx as [|i rest IH]; intros p Hidx Hall; simpl; [done|].
  destruct (lookup_lt_is_Some_2 (Refs (r p)) i) as [d Hd];
    [apply Hidx; left|].
  rewrite (list_lookup_total_correct _ _ _ Hd).
  destruct (dr_walkNode d) as [l|] eqn:Hl.
  { apply IH; [|done]. intros j Hj. apply Hidx. by right. }
  pose proof Hall as Hall'. rewrite Forall_lookup in Hall'.
  destruct (Hall' _ _ Hd) as [[l Hl']|(val & o & Hget & Hdec)]; [congruence|].
  destruct (Value_succeeds _ _ _ _ Hl Hget Hdec) as (q & d' & Hv & _).
  rewrite Hv.
  pose proof (Value_frame _ _ _ _ _ _ Hv) as (Hc & Hq & _ & Hu & _).
  destruct (Value_ok_nil _ _ _ _ _ Hl Hv) as (_ & _ & Hd' & _).
  rewrite Hq. apply IH.
  - simpl. rewrite length_insert. intros j Hj. apply Hidx. by right.
  - simpl. apply Forall_insert.
    + eapply Forall_impl; [exact Hall|]. simpl.
      intros x [Hx|(val' & o' & Hget' & Hdec')]; [by left|right].
      exists val', o'. split; [|done].
      rewrite <- Hget'. by apply get_frame.
    + left. rewrite Hd'. by eexists.
Qed.

(** C6. Lazy against eager.  For a Pack just opened over its Root:
    without [EntireTree] and with at least two references, [init] unpacks
    nothing and [RefByIndex 0] leaves every other entry, index 1 among
    them, as it was, Unresolved; a call without error leaves index 0
    resolved, and the call is without error, with the decoded value
    cached at index 0, whenever [get] finds the object of entry 0 and
    the registry decodes it.  With [EntireTree], [init] succeeds
    whenever every object is found and decodes; a successful [init]
    leaves every reference resolved, and so does [Refs] after it, which
    then cannot fail. *)
Theorem lazy_vs_eager p :
  just_opened p →
  (Z.land (flags p) EntireTree = 0 → (2 ≤ length (Refs (r p)))%nat →
     init p = (p, None)
     ∧ ∀ p' dr err, RefByIndex p 0 = (p', dr, err) →
         dr_walkNode (Refs (r p') !!! 1%nat) = None
         ∧ ¬ resolved p' (Refs (r p') !!! 1%nat)
         ∧ (∀ j, j ≠ 0%nat → Refs (r p') !! j = Refs (r p) !! j)
         ∧ (err = None →
            resolved p' (Refs (r p') !!! 0%nat)
            ∧ dr = Refs (r p') !!! 0%nat)
         ∧ (∀ val o,
              get p (Object (Refs (r p) !!! 0%nat)) = (Some val, None) →
              decode (SchemaRef (Refs (r p) !!! 0%nat)) val = inr o →
              err = None
              ∧ cached p' (Refs (r p') !!! 0%nat) = Some o))
  ∧ (Z.land (flags p) EntireTree ≠ 0 →
     (Forall (λ d, ∃ val o, get p (Object d) = (Some val, None)
                            ∧ decode (SchemaRef d) val = inr o)
             (Refs (r p)) →
      (init p).2 = None)
     ∧ ∀ p1, init p = (p1, None) →
         Forall (resolved p1) (Refs (r p1))
         ∧ ∀ p2 drs err, Pack_Refs p1 = (p2, drs, err) →
             err = None ∧ Forall (resolved p2) (Refs (r p2))).
Proof.
  intros Hopen. split.
  - intros Hflag Hlen. split.
    { unfold init, has_flag. by rewrite Hflag. }
    intros p' dr err Hcall.
    destruct (lookup_lt_is_Some_2 (Refs (r p)) 0) as [d0 Hd0]; [lia|].
    destruct (lookup_lt_is_Some_2 (Refs (r p)) 1) as [d1 Hd1]; [lia|].
    pose proof Hopen as Hall. unfold just_opened in Hall.
    rewrite Forall_lookup in Hall.
    pose proof (Hall _ _ Hd0) as Hn0. pose proof (Hall _ _ Hd1) as Hn1.
    rewrite (RefByIndex_in p 0 d0) in Hcall by (done || lia).
    rewrite Hn0 in Hcall.
    rewrite (list_lookup_total_correct _ _ _ Hd0).
    destruct (Value p d0) as [[[q d'] v] e] eqn:Hv.
    injection Hcall as <- <- <-. simpl. change (Z.to_nat 0) with 0%nat.
    assert (H1 : <[0%nat := d']> (Refs (r p)) !!! 1%nat = d1).
    { apply list_lookup_total_correct. by rewrite list_lookup_insert_ne. }
    assert (H0 : <[0%nat := d']> (Refs (r p)) !!! 0%nat = d').
    { apply list_lookup_total_insert_eq. lia. }
    rewrite H1, H0. split_and!.
    + done.
    + intros Hres. apply resolved_unpacked in Hres as [l Hl]. congruence.
    + intros j Hj. by apply list_lookup_insert_ne.
    + intros ->.
      destruct (Value_step_filled _ _ _ _ _ _ Hd0 Hn0 Hv
                  (just_opened_filled _ Hopen)) as (_ & Hres & _).
      done.
    + intros val o Hget Hdec.
      destruct (Value_succeeds _ _ _ _ Hn0 Hget Hdec) as (q' & d'' & Hv' & Hc).
      rewrite Hv in Hv'. injection Hv' as -> -> _ ->. done.
  - intros Hflag. split.
    { intros Hall. unfold init, has_flag.
      destruct (Z.eqb_spec (Z.land (flags p) EntireTree) 0); [done|]. simpl.
      unfold Pack_Refs.
      pose proof (Refs_loop_succeeds (seq 0 (length (Refs (r p)))) p) as Hok.
      destruct (Refs_loop p (seq 0 (length (Refs (r p))))) as [q e].
      simpl in *. apply Hok.
      - intros i Hi. apply elem_of_seq in Hi. lia.
      - eapply Forall_impl; [exact Hall|]. simpl. by right. }
    intros p1. unfold init, has_flag.
    destruct (Z.eqb_spec (Z.land (flags p) EntireTree) 0); [done|]. simpl.
    destruct (Pack_Refs p) as [[q drs] e] eqn:Hrefs. intros [= -> ->].
    destruct (Pack_Refs_resolves _ _ _ (just_opened_filled _ Hopen) Hrefs)
      as (Hall & Hfill & _).
    split; [done|]. intros p2 drs2 err. unfold Pack_Refs.
    rewrite Refs_loop_unpacked.
    + by intros [= <- <- <-].
    + intros i Hi. apply elem_of_seq in Hi.
      destruct (lookup_lt_is_Some_2 (Refs (r p1)) i) as [d Hd]; [lia|].
      rewrite (list_lookup_total_correct _ _ _ Hd).
      rewrite Forall_lookup in Hall. eapply resolved_unpacked, Hall, Hd.
Qed.

(** *** Append: allocation and reattachment *)

Lemma pointers_cons dr drs :
  pointers (dr :: drs)
  = match dr_walkNode dr with
    | Some l => l :: pointers drs
    | None => pointers drs
    end.
Proof. done. Qed.

Lemma pointers_app drs1 drs2 :
  pointers (drs1 ++ drs2) = pointers drs1 ++ pointers drs2.
Proof. apply omap_app. Qed.

Lemma pointers_all (drs : list Dynamic) (ls : list ptr) :
  dr_walkNode <$> drs = Some <$> ls → pointers drs = ls.
Proof.
  revert ls. induction drs as [|d drs IH]; intros [|l ls]; try done.
  rewrite !fmap_cons, pointers_cons. intros [= -> Hrest]. by rewrite (IH ls).
Qed.

Lemma elem_of_pointers drs i dr l :
  drs !! i = Some dr → dr_walkNode dr = Some l → l ∈ pointers drs.
Proof.
  intros Hi Hl. apply list_elem_of_omap. exists dr. split; [|done].
  by eapply list_elem_of_lookup_2.
Qed.

(** A successful [SetValue] keeps the Root and the node of the reference,
    and no node changes place. *)
Lemma SetValue_ok p dr o p' dr' :
  SetValue p dr o = (p', dr', None) →
  r p' = r p ∧ dr_walkNode dr' = dr_walkNode dr
  ∧ length (heap p') = length (heap p)
  ∧ ∀ l, place <$> heap p' !! l = place <$> heap p !! l.
Proof.
  unfold SetValue, add, set. destruct (encode o) as [e|[sch val]]; [done|].
  simpl. intros [= <- <-]. simpl.
  destruct (dr_walkNode dr) as [l0|]; simpl; [|done].
  split_and!; try done; [apply length_alter|].
  intros l. destruct (decide (l0 = l)) as [<-|Hne];
    [rewrite list_lookup_alter_eq | by rewrite list_lookup_alter_ne].
  by destruct (heap p !! l0).
Qed.

(** The first loop of [Append] gives the new references the next free
    addresses, in order. *)
Lemma Append_build_ok objs : ∀ p drs p' drs',
  Append_build p objs drs = (p', drs', None) →
  r p' = r p
  ∧ length (heap p') = (length (heap p) + length objs)%nat
  ∧ ∃ new, drs' = drs ++ new
           ∧ dr_walkNode <$> new
             = Some <$> seq (length (heap p)) (length objs).
Proof.
  induction objs as [|o rest IH]; intros p drs p' drs'; simpl.
  { intros [= <- <-]. split_and!; [done|lia|]. exists []. by rewrite app_nil_r. }
  destruct (SetValue (set_heap (heap p ++ [mkWalkNode None None]) p)
              (mkDynamic cipher.zero cipher.zero (Some (length (heap p)))) o)
    as [[q dr] [e|]] eqn:Hset; [done|].
  intros Hrec. apply SetValue_ok in Hset as (Hr & Hwn & Hlen & _).
  apply IH in Hrec as (Hr' & Hlen' & new & -> & Hnew).
  simpl in *. rewrite length_app in Hlen. simpl in Hlen.
  split_and!; [congruence|lia|].
  exists (dr :: new). split; [by rewrite <- app_assoc|].
  rewrite fmap_cons, Hwn, Hnew, Hlen. simpl.
  by rewrite Nat.add_1_r.
Qed.

Lemma reattach_frame drs : ∀ p i,
  r (reattach p i drs) = r p
  ∧ length (heap (reattach p i drs)) = length (heap p).
Proof.
  induction drs as [|d drs IH]; intros p i; simpl; [done|].
  destruct (IH (if unpackedb d then Attach p d i else p) (S i)) as [-> ->].
  unfold unpackedb, Attach. destruct (dr_walkNode d); simpl; [|done].
  by rewrite length_alter.
Qed.

(** Reattaching touches the nodes of the references it goes through, and
    no other. *)
Lemma reattach_other drs : ∀ p i l,
  l ∉ pointers drs → heap (reattach p i drs) !! l = heap p !! l.
Proof.
  induction drs as [|d drs IH]; intros p i l Hl; simpl; [done|].
  rewrite pointers_cons in Hl. unfold unpackedb, Attach.
  destruct (dr_walkNode d) as [l0|]; [|by apply IH].
  apply not_elem_of_cons in Hl as [Hne Hl]. rewrite IH by done.
  simpl. by rewrite list_lookup_alter_ne.
Qed.

(** After reattaching from index [i], the node of the [j]-th reference
    records [i + j]. *)
Lemma reattach_place drs : ∀ p i j dr l,
  NoDup (pointers drs) →
  Forall (λ l, (l < length (heap p))%nat) (pointers drs) →
  drs !! j = Some dr → dr_walkNode dr = Some l →
  place <$> heap (reattach p i drs) !! l = Some (Some (i + j)%nat).
Proof.
  induction drs as [|d drs IH]; intros p i j dr l Hnd Hlt Hj Hl; [done|].
  rewrite pointers_cons in Hnd, Hlt. simpl. destruct j as [|j]; simpl in Hj.
  - injection Hj as ->. unfold unpackedb, Attach. rewrite Hl in *.
    apply NoDup_cons in Hnd as [Hnotin _]. apply Forall_cons in Hlt as [Hlt _].
    rewrite reattach_other by done. simpl. rewrite list_lookup_alter_eq.
    apply lookup_lt_is_Some in Hlt as [wn ->]. simpl.
    by rewrite Nat.add_0_r.
  - replace (i + S j)%nat with (S i + j)%nat by lia.
    eapply IH; [| |exact Hj|exact Hl].
    + destruct (dr_walkNode d); [by apply NoDup_cons in Hnd as [_ ?]|done].
    + assert (Hlen : length (heap (if unpackedb d then Attach p d i else p))
                     = length (heap p)).
      { unfold unpackedb, Attach. destruct (dr_walkNode d); simpl; [|done].
        apply length_alter. }
      rewrite Hlen.
      destruct (dr_walkNode d); [by apply Forall_cons in Hlt as [_ ?]|done].
Qed.

Lemma recorded_index_place p dr l i :
  dr_walkNode dr = Some l →
  place <$> heap p !! l = Some (Some i) →
  recorded_index p dr = Some i.
Proof.
  intros Hl Hp. unfold recorded_index, node. rewrite Hl. simpl.
  destruct (heap p !! l) as [wn|]; simplify_eq/=. done.
Qed.

(** What a successful [Append] of at least one object leaves behind. *)
Lemma Append_ok p objs p' :
  objs ≠ [] → nodes_wf p →
  Append p objs = (p', None) →
  nodes_wf p'
  ∧ (∃ new, Refs (r p') = Refs (r p) ++ new
            ∧ length new = length objs ∧ Forall unpacked new)
  ∧ ∀ i dr, Refs (r p') !! i = Some dr → unpacked dr →
            recorded_index p' dr = Some i.
Proof.
  intros Hne [Hnd Hlt]. unfold Append.
  destruct objs as [|o objs]; [done|]. clear Hne.
  change (length (o :: objs) =? 0)%nat with false. cbv iota.
  destruct (Append_build p (o :: objs) []) as [[q drs] [e|]] eqn:Hb; [done|].
  intros [= <-].
  apply Append_build_ok in Hb as (Hr & Hlen & new & -> & Hnew).
  rewrite app_nil_l in *. set (objs' := o :: objs) in *.
  pose proof (pointers_all _ _ Hnew) as Hptr. rewrite Hr.
  destruct (reattach_frame (Refs (r p) ++ new)
              (set_Refs (Refs (r p) ++ new) q) 0) as [Hr' Hlen'].
  assert (Hrefs : Refs (r (reattach (set_Refs (Refs (r p) ++ new) q) 0
                             (Refs (r p) ++ new)))
                  = Refs (r p) ++ new) by (by rewrite Hr').
  simpl in Hlen'.
  assert (Hnd' : NoDup (pointers (Refs (r p) ++ new))).
  { rewrite pointers_app, Hptr. apply NoDup_app. split_and!; [done| |apply NoDup_seq].
    intros l Hl Hin. apply elem_of_seq in Hin.
    rewrite Forall_forall in Hlt. apply Hlt in Hl. lia. }
  assert (Hlt' : Forall (λ l, (l < length (heap q))%nat)
                        (pointers (Refs (r p) ++ new))).
  { rewrite pointers_app, Hptr. apply Forall_app. split.
    - eapply Forall_impl; [exact Hlt|]. simpl. intros; lia.
    - apply Forall_forall. intros l Hin. apply elem_of_seq in Hin. lia. }
  split_and!.
  - unfold nodes_wf. rewrite Hrefs, Hlen'. done.
  - exists new. rewrite Hrefs. split_and!; [done| |].
    + apply (f_equal length) in Hnew. by rewrite !length_fmap, length_seq in Hnew.
    + apply Forall_forall. intros d Hd. unfold unpacked.
      apply (list_elem_of_fmap_2 dr_walkNode) in Hd.
      rewrite Hnew in Hd. apply list_elem_of_fmap in Hd as (l & -> & _). eauto.
  - rewrite Hrefs. intros i dr Hi [l Hl].
    apply (recorded_index_place _ _ l); [done|].
    by apply (reattach_place (Refs (r p) ++ new) _ 0 i dr l).
Qed.

(** *** Pop and the recorded indices *)

(** Under [NoDup], an earlier reference does not share the node of the
    last one. *)
Lemma pointers_last_fresh drs i d l :
  NoDup (pointers drs) →
  drs !! i = Some d → (i < length drs - 1)%nat →
  dr_walkNode d = Some l →
  dr_walkNode (drs !!! (length drs - 1)%nat) ≠ Some l.
Proof.
  intros Hnd Hi Hlt Hl Hlast.
  destruct (lookup_lt_is_Some_2 drs (length drs - 1)) as [dl Hdl]; [lia|].
  rewrite (list_lookup_total_correct _ _ _ Hdl) in Hlast.
  rewrite <- (take_drop_middle _ _ _ Hdl), pointers_app, pointers_cons, Hlast
    in Hnd.
  apply NoDup_app in Hnd as (_ & Hdisj & _).
  apply (Hdisj l); [|left].
  apply (elem_of_pointers _ i d); [|done]. by rewrite lookup_take_lt.
Qed.

(** [Pop] changes the node of the reference it removes, or the one it
    allocates for it, and no other. *)
Lemma Pop_heap_other p l :
  (l < length (heap p))%nat →
  dr_walkNode (Refs (r p) !!! (length (Refs (r p)) - 1)%nat) ≠ Some l →
  heap (Pop p).1.1 !! l = heap p !! l.
Proof.
  intros Hlt Hlast. unfold Pop.
  destruct (length (Refs (r p)) =? 0)%nat; [done|].
  set (n := (length (Refs (r p)) - 1)%nat) in *.
  destruct (dr_walkNode (Refs (r p) !!! n)) as [l0|] eqn:Hl0.
  - simpl. unfold Detach. rewrite Hl0. simpl.
    apply list_lookup_alter_ne. congruence.
  - destruct (Value (new_walkNode p).1
                (mkDynamic (SchemaRef (Refs (r p) !!! n))
                           (Object (Refs (r p) !!! n))
                           (Some (new_walkNode p).2)))
      as [[[q dr] v] err] eqn:Hv.
    unfold new_walkNode in *. simpl in *. rewrite Hv. simpl.
    destruct err as [e|].
    + apply Value_fail in Hv as (-> & _). simpl. by apply lookup_app_l.
    + eapply Value_ok_node in Hv as (_ & _ & Hother & _); [|done].
      rewrite Hother by lia. simpl. by apply lookup_app_l.
Qed.

(** The references [Pop] leaves record what they recorded before. *)
Lemma Pop_recorded_index p i dr :
  nodes_wf p →
  Refs (r (Pop p).1.1) !! i = Some dr →
  recorded_index (Pop p).1.1 dr = recorded_index p dr.
Proof.
  intros [Hnd Hlt]. rewrite Pop_r. simpl. intros Hi.
  pose proof (lookup_lt_Some _ _ _ Hi) as Hlen. rewrite length_take in Hlen.
  rewrite lookup_take_lt in Hi by lia.
  unfold recorded_index, node.
  destruct (dr_walkNode dr) as [l|] eqn:Hl; [simpl|done].
  rewrite Pop_heap_other; [done| |].
  - rewrite Forall_forall in Hlt. apply Hlt. by eapply elem_of_pointers.
  - eapply pointers_last_fresh; eauto. lia.
Qed.

(** C5, as amended.  Reattachment.  A successful [Append] of at least one object to a
    Pack whose references own their nodes leaves every reference that has
    a node recording its own index, the appended ones included.  And
    after [Append(a, b, c)] on an empty Root followed by [Pop], the two
    references left record 0 and 1. *)
Theorem reattachment p :
  (∀ objs p', objs ≠ [] → nodes_wf p → Append p objs = (p', None) →
     length (Refs (r p')) = (length (Refs (r p)) + length objs)%nat
     ∧ (∀ i dr, Refs (r p') !! i = Some dr → unpacked dr →
                recorded_index p' dr = Some i)
     ∧ (∀ i dr, Refs (r p') !! i = Some dr →
                (length (Refs (r p)) ≤ i)%nat → unpacked dr))
  ∧ (∀ a b c p1, Refs (r p) = [] → Append p [a; b; c] = (p1, None) →
     length (Refs (r p1)) = 3%nat
     ∧ recorded_index (Pop p1).1.1 <$> Refs (r (Pop p1).1.1)
       = [Some 0%nat; Some 1%nat]).
Proof.
  split.
  - intros objs p' Hne Hwf Happ.
    destruct (Append_ok _ _ _ Hne Hwf Happ)
      as (_ & (new & Hrefs & Hlen & Hnew) & Hidx).
    rewrite Hrefs in Hidx |- *. rewrite length_app, Hlen.
    split_and!; [done|done|].
    intros i dr Hi Hge. rewrite lookup_app_r in Hi by done.
    rewrite Forall_lookup in Hnew. by eapply Hnew.
  - intros a b c p1 Hnil Happ.
    assert (Hwf : nodes_wf p).
    { unfold nodes_wf. rewrite Hnil. split; [apply NoDup_nil_2|apply Forall_nil_2]. }
    destruct (Append_ok p [a; b; c] p1 ltac:(done) Hwf Happ)
      as (Hwf1 & (new & Hrefs & Hlen & Hnew) & Hidx).
    rewrite Hnil, app_nil_l in Hrefs.
    destruct new as [|x0 [|x1 [|x2 [|]]]]; try done. clear Hlen.
    split; [by rewrite Hrefs|].
    assert (Hpop : Refs (r (Pop p1).1.1) = [x0; x1]).
    { rewrite Pop_r. simpl. by rewrite Hrefs. }
    rewrite Hpop. simpl.
    rewrite (Pop_recorded_index p1 0 x0), (Pop_recorded_index p1 1 x1);
      try done; try (by rewrite Hpop).
    apply Forall_cons in Hnew as [Hx0 Hnew].
    apply Forall_cons in Hnew as [Hx1 _].
    rewrite (Hidx 0%nat x0), (Hidx 1%nat x1); try done; by rewrite Hrefs.
Qed.

(** *** The references own their nodes: an invariant of the Pack *)

Lemma just_opened_wf p : just_opened p → nodes_wf p.
Proof.
  unfold just_opened, nodes_wf. intros Hopen.
  assert (pointers (Refs (r p)) = []) as ->.
  { induction Hopen as [|d drs Hd _ IH]; [done|].
    by rewrite pointers_cons, Hd. }
  split; [apply NoDup_nil_2|apply Forall_nil_2].
Qed.

(** Keeping the references and not shrinking the heap keeps the
    invariant. *)
Lemma nodes_wf_frame p q :
  Refs (r q) = Refs (r p) → (length (heap p) ≤ length (heap q))%nat →
  nodes_wf p → nodes_wf q.
Proof.
  unfold nodes_wf. intros -> Hlen [Hnd Hlt]. split; [done|].
  eapply Forall_impl; [exact Hlt|]. simpl. intros; lia.
Qed.

(** Pointing an Unresolved entry to the node just allocated keeps it. *)
Lemma nodes_wf_resolve p q i d s o :
  nodes_wf p →
  Refs (r p) !! i = Some d → dr_walkNode d = None →
  length (heap q) = S (length (heap p)) →
  nodes_wf (set_Refs (<[i := mkDynamic s o (Some (length (heap p)))]>
                        (Refs (r p))) q).
Proof.
  unfold nodes_wf. intros [Hnd Hlt] Hi Hnil Hlen. simpl.
  pose proof (lookup_lt_Some _ _ _ Hi) as Hilt.
  rewrite insert_take_drop by done.
  rewrite <- (take_drop_middle _ _ _ Hi), pointers_app, pointers_cons, Hnil
    in Hnd, Hlt.
  rewrite pointers_app, pointers_cons. simpl.
  rewrite <- Permutation_middle, Hlen. split.
  - apply NoDup_cons. split; [|done].
    intros Hin. rewrite Forall_forall in Hlt. apply Hlt in Hin. lia.
  - apply Forall_cons. split; [lia|].
    eapply Forall_impl; [exact Hlt|]. simpl. intros; lia.
Qed.

(** One turn of unpacking the entry at [i], as [Refs] and [RefByIndex]
    do it. *)
Lemma nodes_wf_Value p i d q d' v err :
  nodes_wf p →
  Refs (r p) !! i = Some d → dr_walkNode d = None →
  Value p d = (q, d', v, err) →
  nodes_wf (set_Refs (<[i := d']> (Refs (r p))) q).
Proof.
  intros Hwf Hi Hnil Hv. destruct err as [e|].
  - apply Value_fail in Hv as (-> & -> & _).
    eapply nodes_wf_frame; [| |exact Hwf]; simpl; [|done].
    by apply list_insert_id.
  - destruct (Value_ok_nil _ _ _ _ _ Hnil Hv) as (x & _ & -> & Hheap).
    eapply nodes_wf_resolve; eauto.
    rewrite Hheap, length_app. simpl. lia.
Qed.

Lemma RefByIndex_wf p i : nodes_wf p → nodes_wf (RefByIndex p i).1.1.
Proof.
  intros Hwf.
  destruct (decide (0 ≤ i < Z.of_nat (length (Refs (r p))))) as [Hin|Hout];
    [|by rewrite RefByIndex_out].
  destruct (lookup_lt_is_Some_2 (Refs (r p)) (Z.to_nat i)) as [d Hd]; [lia|].
  rewrite (RefByIndex_in p i d Hin Hd).
  destruct (dr_walkNode d) as [l|] eqn:Hl; [done|].
  destruct (Value p d) as [[[q d'] v] err] eqn:Hv. simpl.
  by eapply nodes_wf_Value.
Qed.

Lemma Refs_loop_wf idx : ∀ p, nodes_wf p → nodes_wf (Refs_loop p idx).1.
Proof.
  induction idx as [|i rest IH]; intros p Hwf; simpl; [done|].
  destruct (dr_walkNode (Refs (r p) !!! i)) as [l|] eqn:Hl; [by apply IH|].
  destruct (Value p (Refs (r p) !!! i)) as [[[q d'] v] err] eqn:Hv.
  pose proof (Value_frame _ _ _ _ _ _ Hv) as (_ & Hq & _). rewrite Hq.
  assert (Hwf1 : nodes_wf (set_Refs (<[i := d']> (Refs (r p))) q)).
  { destruct (Refs (r p) !! i) as [d|] eqn:Hd.
    - rewrite (list_lookup_total_correct _ _ _ Hd) in Hl, Hv.
      by eapply nodes_wf_Value.
    - apply lookup_ge_None in Hd.
      eapply nodes_wf_frame; [| |exact Hwf]; simpl.
      + by apply list_insert_ge.
      + destruct err as [e|].
        * by apply Value_fail in Hv as (-> & _).
        * destruct (Value_ok_nil _ _ _ _ _ Hl Hv) as (x & _ & _ & ->).
          rewrite length_app. lia. }
  destruct err; [done|by apply IH].
Qed.

Lemma Pack_Refs_wf p : nodes_wf p → nodes_wf (Pack_Refs p).1.1.
Proof.
  intros Hwf. unfold Pack_Refs.
  pose proof (Refs_loop_wf (seq 0 (length (Refs (r p)))) p Hwf) as Hloop.
  by destruct (Refs_loop p (seq 0 (length (Refs (r p))))).
Qed.

Lemma init_wf p : nodes_wf p → nodes_wf (init p).1.
Proof.
  intros Hwf. unfold init. destruct (has_flag (flags p) EntireTree); [|done].
  pose proof (Pack_Refs_wf p Hwf) as Hrefs.
  by destruct (Pack_Refs p) as [[q drs] err].
Qed.

Lemma Pop_heap_length p : (length (heap p) ≤ length (heap (Pop p).1.1))%nat.
Proof.
  unfold Pop. destruct (length (Refs (r p)) =? 0)%nat; [done|].
  set (n := (length (Refs (r p)) - 1)%nat).
  destruct (dr_walkNode (Refs (r p) !!! n)) as [l0|] eqn:Hl0.
  - simpl. unfold Detach. rewrite Hl0. simpl. by rewrite length_alter.
  - destruct (Value (new_walkNode p).1
                (mkDynamic (SchemaRef (Refs (r p) !!! n))
                           (Object (Refs (r p) !!! n))
                           (Some (new_walkNode p).2)))
      as [[[q dr] v] err] eqn:Hv.
    unfold new_walkNode in *. simpl in *. rewrite Hv. simpl.
    destruct err as [e|].
    + apply Value_fail in Hv as (-> & _). simpl. rewrite length_app. lia.
    + eapply Value_ok_node in Hv as (_ & -> & _); [|done].
      simpl. rewrite length_app. lia.
Qed.

Lemma Pop_wf p : nodes_wf p → nodes_wf (Pop p).1.1.
Proof.
  intros [Hnd Hlt]. unfold nodes_wf. rewrite Pop_r. simpl.
  set (k := (length (Refs (r p)) - 1)%nat).
  rewrite <- (take_drop k (Refs (r p))), pointers_app in Hnd, Hlt.
  apply NoDup_app in Hnd as (Hnd & _). apply Forall_app in Hlt as [Hlt _].
  split; [done|]. eapply Forall_impl; [exact Hlt|]. simpl.
  intros l Hl. pose proof (Pop_heap_length p). lia.
Qed.

Lemma Append_build_frame objs : ∀ p drs,
  r (Append_build p objs drs).1.1 = r p
  ∧ (length (heap p) ≤ length (heap (Append_build p objs drs).1.1))%nat.
Proof.
  induction objs as [|o rest IH]; intros p drs; simpl; [done|].
  unfold SetValue, add, set.
  destruct (encode o) as [e|[sch val]]; simpl.
  { rewrite length_app. simpl. split; [done|lia]. }
  match goal with |- context [Append_build ?q rest ?l] =>
    destruct (IH q l) as [Hr Hlen]; rewrite Hr; split; [done|];
    etrans; [|exact Hlen] end.
  simpl. rewrite length_alter, length_app. lia.
Qed.

Lemma Append_wf p objs : nodes_wf p → nodes_wf (Append p objs).1.
Proof.
  intros Hwf. destruct (Append p objs) as [p' [e|]] eqn:Happ.
  - revert Happ. unfold Append. destruct (length objs =? 0)%nat; [done|].
    destruct (Append_build_frame objs p []) as [Hr Hlen].
    destruct (Append_build p objs []) as [[q drs] [e'|]]; [|done].
    intros [= <- _]. simpl in *.
    eapply nodes_wf_frame; [| |exact Hwf]; [by rewrite Hr|done].
  - destruct objs as [|o objs].
    + unfold Append in Happ. simpl in Happ. by injection Happ as <-.
    + by eapply Append_ok in Happ as (? & _).
Qed.

Lemma Save_wf now p : nodes_wf p → nodes_wf (Save now p).1.1.
Proof.
  intros Hwf. destruct (Save now p) as [[p' root] err] eqn:Hs.
  apply Save_inv in Hs as (_ & _ & Hheap & _ & Hrefs & _). simpl.
  eapply nodes_wf_frame; [exact Hrefs| |exact Hwf]. by rewrite Hheap.
Qed.

(** X21. However a client drives a Pack it has just opened, through
    [init] and any calls of [Append], [Pop], [RefByIndex], [Refs] and
    [Save], whatever they return, the references keep owning their
    nodes: no two references of the Root share a walk node, and every
    node they point to is allocated. *)
Lemma session_wf p calls : just_opened p → nodes_wf (session p calls).
Proof.
  intros Hopen. unfold session.
  assert (Hwf : nodes_wf (init p).1) by by apply init_wf, just_opened_wf.
  revert Hwf. generalize (init p).1. clear Hopen p.
  induction calls as [|cl calls IH]; intros p Hwf; simpl; [done|].
  apply IH. destruct cl; simpl;
    auto using Append_wf, Pop_wf, RefByIndex_wf, Pack_Refs_wf, Save_wf.
Qed.

(** *** More on the write buffer and on Save *)

Lemma Pack_eta p :
  mkPack (c p) (r p) (flags p) (unsaved p) (cache p) (heap p) = p.
Proof. by destruct p. Qed.

Lemma Root_eta (rt : Root) : mkRoot (Seq rt) (Time rt) (Refs rt) = rt.
Proof. by destruct rt. Qed.

Lemma set_Refs_same p : set_Refs (Refs (r p)) p = p.
Proof. unfold set_Refs, set_r. by rewrite Root_eta, Pack_eta. Qed.

(** [get], when the backend serves views. *)
Lemma get_cases p key :
  views_work p →
  get p key
  = match unsaved p !! key with
    | Some val => (Some val, None)
    | None =>
        match objects (c p) !! key with
        | Some val => (Some val, None)
        | None => (None, Some (ErrObjectNotFound key))
        end
    end.
Proof.
  unfold views_work, get, View, Get, lift_err. intros Hv.
  destruct (unsaved p !! key); [done|].
  destruct (fault (c p)); try done; by destruct (objects (c p) !! key).
Qed.

(** X1. Read-through.  With a backend that serves views, [get] succeeds
    exactly for the keys that are staged or stored; a staged value hides
    the stored one; a stored value is returned for a key that is not
    staged; and the only failure is "not found", with no bytes. *)
Theorem get_read_through p key :
  views_work p →
  ((get p key).2 = None
   ↔ is_Some (unsaved p !! key) ∨ is_Some (objects (c p) !! key))
  ∧ (∀ val, unsaved p !! key = Some val → get p key = (Some val, None))
  ∧ (∀ val, unsaved p !! key = None → objects (c p) !! key = Some val →
            get p key = (Some val, None))
  ∧ (∀ e, (get p key).2 = Some e →
          e = ErrObjectNotFound key ∧ (get p key).1 = None).
Proof.
  intros Hv. rewrite (get_cases p key Hv).
  destruct (unsaved p !! key) as [v|] eqn:Hu;
    [|destruct (objects (c p) !! key) as [w|] eqn:Ho]; simpl.
  - split_and!; [naive_solver|by intros ? [= ->]|done|done].
  - split_and!; [naive_solver|done|by intros ? _ [= ->]|done].
  - split_and!; [|done|done|by intros ? [= <-]].
    split; [done|]. intros [[? [=]]|[? [=]]].
Qed.

(** X2. The write buffer by hand.  [set] on a key last written wins;
    [set] on one key does not change what [get] returns for another;
    [del] of a key that [set] has just staged for the first time gives
    the Pack back; and after [del] a key is read from the store. *)
Theorem set_del_laws p key val :
  (∀ val', set (set p key val') key val = set p key val)
  ∧ (∀ key', key' ≠ key → get (set p key val) key' = get p key')
  ∧ (unsaved p !! key = None → del (set p key val) key = p)
  ∧ (views_work p →
     get (del p key) key
     = match objects (c p) !! key with
       | Some stored => (Some stored, None)
       | None => (None, Some (ErrObjectNotFound key))
       end).
Proof.
  split_and!.
  - intros val'. unfold set, set_unsaved. simpl. by rewrite insert_insert_eq.
  - intros key' Hne. unfold get, set. simpl. by rewrite lookup_insert_ne.
  - intros Hfresh. unfold del, set, set_unsaved. simpl.
    rewrite delete_insert_eq, delete_id by done. apply Pack_eta.
  - intros Hv. rewrite get_cases by done. unfold del. simpl.
    by rewrite lookup_delete_eq.
Qed.

(** A successful [Save] in full: the Pack it leaves. *)
Lemma Save_ok now p p' root :
  Save now p = (p', root, None) →
  p' = mkPack (mkDB (unsaved p ∪ objects (c p)) (fault (c p)))
              (mkRoot (Seq (r p)) now (Refs (r p)))
              (flags p) ∅ (unsaved p ∪ cache p) (heap p)
  ∧ fault (c p) ≠ FailBegin ∧ fault (c p) ≠ FailCommit
  ∧ (unsaved p ≠ ∅ → ∀ n, fault (c p) ≠ FailSetMap n)
  ∧ has_flag (flags p) ViewOnly = false.
Proof.
  unfold Save. destruct (has_flag (flags p) ViewOnly) eqn:Hv; [done|].
  destruct (Update (c (set_Time now p)) (save_tx (set_Time now p)))
    as [db e] eqn:Hup.
  destruct e as [e|]; [done|]. intros [= <- _].
  pose proof (migrate_spec (set_c db (set_Time now p)))
    as (Hc & Hr & Hf & Hh & Hu & Hca). simpl in *.
  revert Hup. unfold Update, save_tx, SetMap. simpl.
  destruct (size (unsaved p) =? 0)%nat eqn:Hsz.
  - apply Nat.eqb_eq, map_size_empty_iff in Hsz.
    destruct (fault (c p)) eqn:Hfault; intros [= <-]; simpl in *;
      (split_and!; [|done|done|done|done]);
      rewrite <- (Pack_eta (migrate _)), Hc, Hr, Hf, Hh, Hu, Hca, Hsz;
      by rewrite !(left_id_L ∅ (∪)).
  - assert (Hne : unsaved p ≠ ∅).
    { intros Hem. rewrite Hem, map_size_empty in Hsz. done. }
    destruct (fault (c p)) eqn:Hfault; simpl; intros [= <-]; simpl in *;
      (split_and!; [|done|done|done|done]);
      by rewrite <- (Pack_eta (migrate _)), Hc, Hr, Hf, Hh, Hu, Hca.
Qed.

(** X3. A successful [Save] cannot be seen through [get]: with a backend
    that serves views, every key reads after the [Save] as it read
    before, the staged ones now from the store. *)
Theorem Save_keeps_get now p p' root key :
  Save now p = (p', root, None) → views_work p →
  views_work p' ∧ get p' key = get p key.
Proof.
  intros Hs Hv. apply Save_ok in Hs as (-> & _).
  assert (Hv' : views_work
    (mkPack (mkDB (unsaved p ∪ objects (c p)) (fault (c p)))
            (mkRoot (Seq (r p)) now (Refs (r p)))
            (flags p) ∅ (unsaved p ∪ cache p) (heap p))) by done.
  split; [done|]. rewrite !get_cases by done. simpl.
  rewrite lookup_empty, lookup_union.
  destruct (unsaved p !! key) as [v|]; simpl;
    by destruct (objects (c p) !! key).
Qed.

(** X4. [Save] stamps the Root before it opens the transaction: on a Pack
    that is not view-only the Root's [Time] is the time of the call
    whether the transaction succeeds or fails, while its references and
    the walk nodes stay as they were. *)
Theorem Save_stamps_Time now p :
  Z.land (flags p) ViewOnly = 0 →
  Time (r (Save now p).1.1) = now
  ∧ Refs (r (Save now p).1.1) = Refs (r p)
  ∧ heap (Save now p).1.1 = heap p.
Proof.
  intros Hflag. destruct (Save now p) as [[p' root] err] eqn:Hs. simpl.
  apply Save_inv in Hs as (_ & _ & Hh & _ & Hrefs & Hcases).
  split_and!; [|done|done].
  destruct Hcases as [(_ & Hv & _)|[(_ & _ & _ & Ht & _)|(_ & _ & Ht & _)]];
    [|done|done].
  unfold has_flag in Hv. by rewrite Hflag in Hv.
Qed.

(** X5. A [Save] after a successful [Save] has nothing to write,
    whatever the backend does by then: it does not call [SetMap], it
    changes the Root's [Time] and nothing else, whether it succeeds or
    fails, and it fails only when the transaction cannot begin or cannot
    commit. *)
Theorem Save_again now now' p p' root (f : Fault) :
  Save now p = (p', root, None) →
  let q := set_c (mkDB (objects (c p')) f) p' in
  (Save now' q).1.1 = set_Time now' q
  ∧ ((Save now' q).2 = None ↔ f ≠ FailBegin ∧ f ≠ FailCommit).
Proof.
  intros Hs. apply Save_ok in Hs as (-> & _ & _ & _ & Hv).
  unfold Save. simpl. rewrite Hv.
  unfold Update, save_tx, migrate, set_Time, set_r, set_c. simpl.
  rewrite map_size_empty. simpl.
  destruct f; simpl; rewrite ?map_to_list_empty; simpl;
    (split; [done|]); split; try done; by intros [? ?].
Qed.

(** *** More on RefByIndex and Refs *)

(** X6. A call of [RefByIndex] that returns an error, whether for a bad
    index or for an entry that cannot be resolved, leaves the Pack as it
    was. *)
Theorem RefByIndex_error_keeps p i e :
  (RefByIndex p i).2 = Some e → (RefByIndex p i).1.1 = p.
Proof.
  destruct (decide (0 ≤ i < Z.of_nat (length (Refs (r p))))) as [Hin|Hout];
    [|by rewrite RefByIndex_out].
  destruct (lookup_lt_is_Some_2 (Refs (r p)) (Z.to_nat i)) as [d Hd]; [lia|].
  rewrite (RefByIndex_in p i d Hin Hd).
  destruct (dr_walkNode d) as [l|] eqn:Hl; [done|].
  destruct (Value p d) as [[[q d'] v] err] eqn:Hv. simpl. intros ->.
  apply Value_fail in Hv as (-> & -> & _).
  rewrite list_insert_id by done. apply set_Refs_same.
Qed.

(** X7. [RefByIndex] settles: once a call has succeeded, the same call
    returns the same reference again and changes nothing more. *)
Theorem RefByIndex_again p i p' dr :
  RefByIndex p i = (p', dr, None) → RefByIndex p' i = (p', dr, None).
Proof.
  intros Hcall.
  destruct (decide (0 ≤ i < Z.of_nat (length (Refs (r p))))) as [Hin|Hout];
    [|by rewrite RefByIndex_out in Hcall].
  destruct (lookup_lt_is_Some_2 (Refs (r p)) (Z.to_nat i)) as [d Hd]; [lia|].
  rewrite (RefByIndex_in p i d Hin Hd) in Hcall.
  destruct (dr_walkNode d) as [l|] eqn:Hl.
  - injection Hcall as <- <-. by rewrite (RefByIndex_in p i d Hin Hd), Hl.
  - destruct (Value p d) as [[[q d'] v] err] eqn:Hv.
    injection Hcall as <- <- ->.
    destruct (Value_ok_nil _ _ _ _ _ Hl Hv) as (o & _ & Hd' & _).
    rewrite (RefByIndex_in _ i d'); simpl.
    + by rewrite Hd'.
    + by rewrite length_insert.
    + apply list_lookup_insert_eq. lia.
Qed.

Lemma hashes_insert p q i d d' :
  Refs (r p) !! i = Some d →
  SchemaRef d' = SchemaRef d → Object d' = Object d →
  hashes (set_Refs (<[i := d']> (Refs (r p))) q) = hashes p.
Proof.
  intros Hi Hs Ho. unfold hashes. simpl.
  rewrite list_fmap_insert, Hs, Ho. apply list_insert_id.
  by rewrite list_lookup_fmap, Hi.
Qed.

Lemma RefByIndex_hashes p i : hashes (RefByIndex p i).1.1 = hashes p.
Proof.
  destruct (decide (0 ≤ i < Z.of_nat (length (Refs (r p))))) as [Hin|Hout];
    [|by rewrite RefByIndex_out].
  destruct (lookup_lt_is_Some_2 (Refs (r p)) (Z.to_nat i)) as [d Hd]; [lia|].
  rewrite (RefByIndex_in p i d Hin Hd).
  destruct (dr_walkNode d) as [l|] eqn:Hl; [done|].
  destruct (Value p d) as [[[q d'] v] err] eqn:Hv. simpl.
  apply Value_frame in Hv as (_ & _ & _ & _ & _ & Hs & Ho).
  by apply (hashes_insert p q _ d).
Qed.

Lemma Refs_loop_hashes idx : ∀ p, hashes (Refs_loop p idx).1 = hashes p.
Proof.
  induction idx as [|i rest IH]; intros p; simpl; [done|].
  destruct (dr_walkNode (Refs (r p) !!! i)) as [l|] eqn:Hl; [apply IH|].
  destruct (Value p (Refs (r p) !!! i)) as [[[q d'] v] err] eqn:Hv.
  pose proof (Value_frame _ _ _ _ _ _ Hv) as (_ & Hq & _ & _ & _ & Hs & Ho).
  rewrite Hq.
  assert (Hstep : hashes (set_Refs (<[i := d']> (Refs (r p))) q) = hashes p).
  { destruct (Refs (r p) !! i) as [d|] eqn:Hd.
    - rewrite (list_lookup_total_correct _ _ _ Hd) in Hs, Ho.
      by apply (hashes_insert p q _ d).
    - apply lookup_ge_None in Hd. unfold hashes. simpl.
      by rewrite list_insert_ge. }
  destruct err; simpl; [done|]. by rewrite IH.
Qed.

Lemma Pack_Refs_hashes p : hashes (Pack_Refs p).1.1 = hashes p.
Proof.
  unfold Pack_Refs.
  pose proof (Refs_loop_hashes (seq 0 (length (Refs (r p)))) p) as Hloop.
  by destruct (Refs_loop p (seq 0 (length (Refs (r p))))).
Qed.

Lemma init_hashes p : hashes (init p).1 = hashes p.
Proof.
  unfold init. destruct (has_flag (flags p) EntireTree); [|done].
  pose proof (Pack_Refs_hashes p) as Hrefs.
  by destruct (Pack_Refs p) as [[q drs] err].
Qed.

Lemma Save_hashes now p : hashes (Save now p).1.1 = hashes p.
Proof.
  destruct (Save now p) as [[p' root] err] eqn:Hs. unfold hashes. simpl.
  by apply Save_inv in Hs as (_ & _ & _ & _ & -> & _).
Qed.

(** X8. Unpacking and saving do not change what the Root refers to:
    after [init], [Refs], [RefByIndex] or [Save], whatever they return,
    the reference list has the same length and the same pairs of schema
    and object hashes in the same order. *)
Theorem unpacking_keeps_hashes p :
  hashes (init p).1 = hashes p
  ∧ hashes (Pack_Refs p).1.1 = hashes p
  ∧ (∀ i, hashes (RefByIndex p i).1.1 = hashes p)
  ∧ (∀ now, hashes (Save now p).1.1 = hashes p).
Proof.
  split_and!;
    auto using init_hashes, Pack_Refs_hashes, RefByIndex_hashes, Save_hashes.
Qed.

(** The loop of [Refs] over the indices [k], ..., [k + m - 1]. *)
Lemma Refs_loop_seq m : ∀ k p p' err,
  Refs_loop p (seq k m) = (p', err) →
  (k + m ≤ length (Refs (r p)))%nat →
  length (Refs (r p')) = length (Refs (r p))
  ∧ (∀ j, (j < k)%nat → Refs (r p') !! j = Refs (r p) !! j)
  ∧ (∀ j d, Refs (r p) !! j = Some d → unpacked d →
            Refs (r p') !! j = Some d)
  ∧ match err with
    | None => ∀ j, (k ≤ j < k + m)%nat → unpacked (Refs (r p') !!! j)
    | Some e =>
        e ≠ ErrIndexOutOfRange ∧ e ≠ ErrViewOnlyTree
        ∧ ∃ i, (k ≤ i < k + m)%nat
               ∧ dr_walkNode (Refs (r p) !!! i) = None
               ∧ (∀ j, (k ≤ j < i)%nat → unpacked (Refs (r p') !!! j))
               ∧ (∀ j, (i ≤ j)%nat → Refs (r p') !! j = Refs (r p) !! j)
    end.
Proof.
  induction m as [|m IH]; intros k p p' err; simpl.
  { intros [= <- <-] _. split_and!; try done. intros j Hj. lia. }
  intros Hloop Hlen.
  destruct (lookup_lt_is_Some_2 (Refs (r p)) k) as [d Hd]; [lia|].
  rewrite (list_lookup_total_correct _ _ _ Hd) in Hloop.
  destruct (dr_walkNode d) as [l|] eqn:Hl.
  - destruct (IH (S k) p p' err Hloop) as (Hlen' & Hbefore & Hkeep & Hres);
      [lia|].
    assert (Hk : Refs (r p') !! k = Some d).
    { apply Hkeep; [done|]. unfold unpacked. eauto. }
    split_and!; try done.
    + intros j Hj. apply Hbefore. lia.
    + destruct err as [e|].
      * destruct Hres as (He1 & He2 & i & Hi & Hnil & Hpre & Hpost).
        split_and!; try done. exists i. split_and!; try done; try lia.
        intros j Hj. destruct (decide (j = k)) as [->|Hne]; [|apply Hpre; lia].
        rewrite (list_lookup_total_correct _ _ _ Hk). unfold unpacked. eauto.
      * intros j Hj. destruct (decide (j = k)) as [->|Hne]; [|apply Hres; lia].
        rewrite (list_lookup_total_correct _ _ _ Hk). unfold unpacked. eauto.
  - destruct (Value p d) as [[[q d'] v] err0] eqn:Hv.
    pose proof (Value_frame _ _ _ _ _ _ Hv) as (_ & Hq & _).
    rewrite Hq in Hloop. destruct err0 as [e|].
    + injection Hloop as <- <-.
      pose proof (Value_fail _ _ _ _ _ _ Hv) as (-> & -> & _ & He1 & He2).
      simpl. rewrite list_insert_id by done.
      split_and!; try done. exists k. split_and!; try done; try lia.
      by rewrite (list_lookup_total_correct _ _ _ Hd).
    + destruct (Value_ok_nil _ _ _ _ _ Hl Hv) as (o & _ & Hd' & _).
      set (p1 := set_Refs (<[k := d']> (Refs (r p))) q) in *.
      assert (Hrefs1 : Refs (r p1) = <[k := d']> (Refs (r p))) by done.
      destruct (IH (S k) p1 p' err Hloop) as (Hlen' & Hbefore & Hkeep & Hres).
      { rewrite Hrefs1, length_insert. lia. }
      rewrite Hrefs1, length_insert in Hlen'.
      assert (Hk : Refs (r p') !! k = Some d').
      { rewrite Hbefore by lia. rewrite Hrefs1.
        apply list_lookup_insert_eq. lia. }
      assert (Hu' : unpacked d') by (rewrite Hd'; unfold unpacked; eauto).
      split_and!; try done.
      * intros j Hj. rewrite Hbefore by lia. rewrite Hrefs1.
        apply list_lookup_insert_ne. lia.
      * intros j x Hx Hu. apply Hkeep; [|done]. rewrite Hrefs1.
        rewrite list_lookup_insert_ne; [done|]. intros <-.
        rewrite Hd in Hx. injection Hx as <-.
        unfold unpacked in Hu. rewrite Hl in Hu. by destruct Hu.
      * destruct err as [e|].
        -- destruct Hres as (He1 & He2 & i & Hi & Hnil & Hpre & Hpost).
           split_and!; try done. exists i. split_and!; try done; try lia.
           ++ rewrite Hrefs1 in Hnil.
              rewrite list_lookup_total_insert_ne in Hnil by lia. done.
           ++ intros j Hj. destruct (decide (j = k)) as [->|Hne];
                [|apply Hpre; lia].
              by rewrite (list_lookup_total_correct _ _ _ Hk).
           ++ intros j Hj. rewrite Hpost by done. rewrite Hrefs1.
              apply list_lookup_insert_ne. lia.
        -- intros j Hj. destruct (decide (j = k)) as [->|Hne];
             [|apply Hres; lia].
           by rewrite (list_lookup_total_correct _ _ _ Hk).
Qed.

(** X9. A successful [Refs] leaves every reference of the Root with a
    walk node, returns no list at all ([drs] is [nil]), and a second
    call succeeds too and changes nothing. *)
Theorem Pack_Refs_settles p p' drs :
  Pack_Refs p = (p', drs, None) →
  drs = []
  ∧ Forall unpacked (Refs (r p'))
  ∧ Pack_Refs p' = (p', [], None).
Proof.
  unfold Pack_Refs.
  destruct (Refs_loop p (seq 0 (length (Refs (r p))))) as [q err] eqn:Hloop.
  intros [= -> <- ->].
  destruct (Refs_loop_seq _ _ _ _ _ Hloop) as (Hlen & _ & _ & Hall); [lia|].
  assert (Hun : Forall unpacked (Refs (r p'))).
  { apply Forall_lookup_2. intros j d Hd.
    pose proof (lookup_lt_Some _ _ _ Hd) as Hlt.
    rewrite <- (list_lookup_total_correct _ _ _ Hd). apply Hall. lia. }
  split_and!; [done|done|].
  rewrite Refs_loop_unpacked; [done|].
  intros j Hj. apply elem_of_seq in Hj.
  destruct (lookup_lt_is_Some_2 (Refs (r p')) j) as [d Hd]; [lia|].
  rewrite (list_lookup_total_correct _ _ _ Hd).
  rewrite Forall_lookup in Hun. by eapply Hun.
Qed.


(** *** More on Append and Pop *)

(** [SetValue] in full. *)
Lemma SetValue_cases p dr o :
  match encode o with
  | inl er => SetValue p dr o = (p, dr, Some (ErrRegistry er))
  | inr (sch, val) =>
      ∃ p', SetValue p dr o
            = (p', mkDynamic sch (SumSHA256 val) (dr_walkNode dr), None)
            ∧ c p' = c p ∧ r p' = r p ∧ flags p' = flags p
            ∧ cache p' = cache p
            ∧ unsaved p' = <[SumSHA256 val := val]> (unsaved p)
  end.
Proof.
  unfold SetValue, add, set. destruct (encode o) as [er|[sch val]]; [done|].
  simpl. eexists. split; [reflexivity|]. by destruct (dr_walkNode dr).
Qed.

(** The first loop of [Append], whatever it returns. *)
Lemma Append_build_run objs : ∀ p drs,
  let res := Append_build p objs drs in
  c res.1.1 = c p ∧ r res.1.1 = r p ∧ flags res.1.1 = flags p
  ∧ cache res.1.1 = cache p
  ∧ (∀ key, is_Some (unsaved p !! key) → is_Some (unsaved res.1.1 !! key))
  ∧ match res.2 with
    | Some e => ∃ o er, o ∈ objs ∧ encode o = inl er ∧ e = ErrRegistry er
    | None =>
        ∃ new, res.1.2 = drs ++ new
               ∧ (λ d, Some (SchemaRef d, Object d)) <$> new = ref_of <$> objs
               ∧ Forall (λ d, is_Some (unsaved res.1.1 !! Object d)) new
    end.
Proof.
  induction objs as [|o rest IH]; intros p drs; simpl.
  { split_and!; try done. exists []. by rewrite app_nil_r. }
  set (p0 := set_heap (heap p ++ [mkWalkNode None None]) p).
  set (dr0 := mkDynamic cipher.zero cipher.zero (Some (length (heap p)))).
  pose proof (SetValue_cases p0 dr0 o) as Hset.
  destruct (encode o) as [er|[sch val]] eqn:Henc.
  - rewrite Hset. simpl. split_and!; try done.
    exists o, er. split_and!; [left|done|done].
  - destruct Hset as (p1 & -> & Hc & Hr & Hf & Hca & Hu).
    destruct (IH p1 (drs ++ [mkDynamic sch (SumSHA256 val) (dr_walkNode dr0)]))
      as (Hc' & Hr' & Hf' & Hca' & Hu' & Hres).
    simpl in *. rewrite Hc', Hr', Hf', Hca', Hc, Hr, Hf, Hca.
    split_and!; try done.
    + intros key Hkey. apply Hu'. rewrite Hu.
      destruct (decide (SumSHA256 val = key)) as [<-|Hne].
      * rewrite lookup_insert_eq. eauto.
      * by rewrite lookup_insert_ne.
    + destruct (Append_build p1 rest _) as [[q ds] [e|]]; simpl in *.
      * destruct Hres as (o' & er & Ho' & Her & ->).
        exists o', er. split_and!; [by right|done|done].
      * destruct Hres as (new & -> & Hnew & Hstaged).
        exists (mkDynamic sch (SumSHA256 val) (Some (length (heap p))) :: new).
        split_and!.
        -- by rewrite <- app_assoc.
        -- rewrite fmap_cons.
           f_equal; [unfold ref_of; by rewrite Henc|exact Hnew].
        -- apply Forall_cons. split; [|done]. simpl.
           apply Hu'. rewrite Hu, lookup_insert_eq. eauto.
Qed.

Lemma reattach_side drs : ∀ p i,
  c (reattach p i drs) = c p ∧ flags (reattach p i drs) = flags p
  ∧ unsaved (reattach p i drs) = unsaved p
  ∧ cache (reattach p i drs) = cache p.
Proof.
  induction drs as [|d drs IH]; intros p i; simpl; [done|].
  destruct (IH (if unpackedb d then Attach p d i else p) (S i))
    as (-> & -> & -> & ->).
  unfold unpackedb, Attach. by destruct (dr_walkNode d).
Qed.

(** [Append] in full, but for the walk nodes. *)
Lemma Append_run p objs :
  let res := Append p objs in
  c res.1 = c p ∧ flags res.1 = flags p ∧ cache res.1 = cache p
  ∧ Seq (r res.1) = Seq (r p) ∧ Time (r res.1) = Time (r p)
  ∧ (∀ key, is_Some (unsaved p !! key) → is_Some (unsaved res.1 !! key))
  ∧ match res.2 with
    | Some e =>
        Refs (r res.1) = Refs (r p)
        ∧ ∃ o er, o ∈ objs ∧ encode o = inl er ∧ e = ErrRegistry er
    | None =>
        ∃ new, Refs (r res.1) = Refs (r p) ++ new
               ∧ (λ d, Some (SchemaRef d, Object d)) <$> new = ref_of <$> objs
               ∧ Forall (λ d, is_Some (unsaved res.1 !! Object d)) new
    end.
Proof.
  unfold Append. destruct objs as [|o objs].
  { simpl. split_and!; try done. exists []. by rewrite app_nil_r. }
  change (length (o :: objs) =? 0)%nat with false. cbv iota.
  pose proof (Append_build_run (o :: objs) p []) as Hb. cbv zeta in Hb.
  destruct (Append_build p (o :: objs) []) as [[q drs] err].
  simpl in Hb. destruct Hb as (Hc & Hr & Hf & Hca & Hu & Hres).
  destruct err as [e|]; simpl.
  - rewrite Hc, Hr, Hf, Hca. split_and!; try done.
  - destruct Hres as (new & -> & Hnew & Hstaged). simpl.
    set (q1 := set_Refs (Refs (r q) ++ new) q).
    destruct (reattach_side (Refs (r q) ++ new) q1 0) as (-> & -> & Hu1 & ->).
    destruct (reattach_frame (Refs (r q) ++ new) q1 0) as [-> _].
    rewrite Hu1. subst q1. simpl. rewrite Hc, Hr, Hf, Hca.
    split_and!; try done. exists new. split_and!; try done.
Qed.

(** X11. [Append] succeeds exactly when every object encodes; and when
    it fails, the error is the registry's error for one of the objects
    and the Root is as it was: no reference at all has been appended. *)
Theorem Append_all_or_nothing p objs :
  ((Append p objs).2 = None ↔ Forall (λ o, is_Some (ref_of o)) objs)
  ∧ (∀ e, (Append p objs).2 = Some e →
          r (Append p objs).1 = r p
          ∧ ∃ o er, o ∈ objs ∧ encode o = inl er ∧ e = ErrRegistry er).
Proof.
  pose proof (Append_run p objs) as Hrun. simpl in Hrun.
  destruct Hrun as (_ & _ & _ & Hseq & Htime & _ & Hres).
  destruct ((Append p objs).2) as [e|] eqn:Herr.
  - destruct Hres as (Hrefs & o & er & Ho & Henc & ->). split.
    + split; [done|]. intros Hall. rewrite Forall_forall in Hall.
      destruct (Hall o Ho) as [sh Hsh]. unfold ref_of in Hsh.
      by rewrite Henc in Hsh.
    + intros e [= <-]. split; [|by eauto].
      rewrite <- (Root_eta (r (Append p objs).1)), Hseq, Htime, Hrefs.
      apply Root_eta.
  - split; [|done]. split; [|done]. intros _.
    destruct Hres as (new & _ & Hnew & _).
    apply Forall_lookup_2. intros i o Hi.
    apply (f_equal (λ l, l !! i)) in Hnew.
    rewrite !list_lookup_fmap, Hi in Hnew. simpl in Hnew.
    destruct (new !! i); simplify_eq/=. rewrite <- Hnew. eauto.
Qed.

(** The write buffer after the first loop of [Append]: every encoding
    staged in turn. *)
Lemma Append_build_unsaved objs : ∀ p drs,
  (Append_build p objs drs).2 = None →
  ∃ vals, bytes_of <$> objs = Some <$> vals
          ∧ unsaved (Append_build p objs drs).1.1
            = foldl stage (unsaved p) vals.
Proof.
  induction objs as [|o rest IH]; intros p drs; simpl.
  { intros _. by exists []. }
  set (p0 := set_heap (heap p ++ [mkWalkNode None None]) p).
  set (dr0 := mkDynamic cipher.zero cipher.zero (Some (length (heap p)))).
  pose proof (SetValue_cases p0 dr0 o) as Hset.
  destruct (encode o) as [er|[sch val]] eqn:Henc.
  - by rewrite Hset.
  - destruct Hset as (p1 & -> & _ & _ & _ & _ & Hu). intros Hok.
    destruct (IH p1 _ Hok) as (vals & Hvals & Hun).
    exists (val :: vals). split.
    + rewrite !fmap_cons. f_equal; [|done]. unfold bytes_of. by rewrite Henc.
    + rewrite Hun, Hu. done.
Qed.

Lemma Append_unsaved p objs p' :
  Append p objs = (p', None) →
  ∃ vals, bytes_of <$> objs = Some <$> vals
          ∧ unsaved p' = foldl stage (unsaved p) vals.
Proof.
  unfold Append. destruct objs as [|o objs].
  { simpl. intros [= <-]. by exists []. }
  change (length (o :: objs) =? 0)%nat with false. cbv iota.
  pose proof (Append_build_unsaved (o :: objs) p []) as Hb.
  destruct (Append_build p (o :: objs) []) as [[q drs] [e|]]; [done|].
  intros [= <-]. destruct (Hb eq_refl) as (vals & Hvals & Hun).
  exists vals. split; [done|]. simpl in Hun. simpl.
  destruct (reattach_side (Refs (r q) ++ drs)
              (set_Refs (Refs (r q) ++ drs) q) 0) as (_ & _ & -> & _).
  done.
Qed.

(** A staged value stays while nothing else is staged under its key. *)
Lemma foldl_stage_keep vals : ∀ (m : gmap SHA256 bytes) val,
  m !! SumSHA256 val = Some val →
  (∀ val', val' ∈ vals → SumSHA256 val' = SumSHA256 val → val' = val) →
  foldl stage m vals !! SumSHA256 val = Some val.
Proof.
  induction vals as [|v rest IH]; intros m val Hm Hsame; simpl; [done|].
  apply IH.
  - unfold stage. destruct (decide (SumSHA256 v = SumSHA256 val)) as [He|Hne].
    + rewrite He, (Hsame v); [apply lookup_insert_eq|left|done].
    + by rewrite lookup_insert_ne.
  - intros val' Hin. apply Hsame. by right.
Qed.

(** Of the values staged under one key, the last is the one kept. *)
Lemma foldl_stage_lookup vals : ∀ (m : gmap SHA256 bytes) i val,
  vals !! i = Some val →
  (∀ j val', (i < j)%nat → vals !! j = Some val' →
             SumSHA256 val' = SumSHA256 val → val' = val) →
  foldl stage m vals !! SumSHA256 val = Some val.
Proof.
  induction vals as [|v rest IH]; intros m i val Hi Hlater; [done|].
  destruct i as [|i]; simpl in *.
  - injection Hi as ->. apply foldl_stage_keep.
    + unfold stage. apply lookup_insert_eq.
    + intros val' Hin. apply list_elem_of_lookup in Hin as [j Hj].
      apply (Hlater (S j)); [lia|done].
  - apply (IH _ i); [done|]. intros j val' Hlt Hj.
    apply (Hlater (S j)); [lia|done].
Qed.

(** X12. A successful [Append] adds to the Root, after the references it
    had and in the order of the objects, one reference for each object,
    with the schema of its encoding and the hash of its bytes.  It
    stages the encodings in the write buffer, each under its hash, one
    after the other in the order of the objects: the bytes of an object
    are what the buffer holds under its hash, unless a later object of
    the same call has the same hash and other bytes.  The store is not
    touched. *)
Theorem Append_hashes p objs p' :
  Append p objs = (p', None) →
  Some <$> hashes p' = (Some <$> hashes p) ++ (ref_of <$> objs)
  ∧ (∃ vals, bytes_of <$> objs = Some <$> vals
             ∧ unsaved p' = foldl stage (unsaved p) vals)
  ∧ (∀ i o val, objs !! i = Some o → bytes_of o = Some val →
       (∀ j o' val', (i < j)%nat → objs !! j = Some o' →
                     bytes_of o' = Some val' →
                     SumSHA256 val' = SumSHA256 val → val' = val) →
       unsaved p' !! SumSHA256 val = Some val)
  ∧ (∀ sh, sh ∈ drop (length (Refs (r p))) (hashes p') →
           is_Some (unsaved p' !! sh.2))
  ∧ c p' = c p.
Proof.
  intros Happ. pose proof (Append_run p objs) as Hrun. simpl in Hrun.
  rewrite Happ in Hrun. simpl in Hrun.
  destruct Hrun as (Hc & _ & _ & _ & _ & _ & new & Hrefs & Hnew & Hstaged).
  destruct (Append_unsaved _ _ _ Happ) as (vals & Hvals & Hun).
  split_and!; [| | | |done].
  - unfold hashes. by rewrite Hrefs, !fmap_app, <- Hnew, <- !list_fmap_compose.
  - by exists vals.
  - intros i o val Hi Hval Hlater. rewrite Hun.
    assert (Hat : ∀ j o' val', objs !! j = Some o' →
                  (bytes_of o' = Some val' ↔ vals !! j = Some val')).
    { intros j o' val' Hj. apply (f_equal (λ l, l !! j)) in Hvals.
      rewrite !list_lookup_fmap, Hj in Hvals. simpl in Hvals.
      destruct (vals !! j); simplify_eq/=. rewrite Hvals. naive_solver. }
    apply (foldl_stage_lookup vals _ i); [by apply (Hat i o)|].
    intros j val' Hlt Hj.
    destruct (objs !! j) as [o'|] eqn:Hoj.
    + apply (Hlater j o'); [done|done|]. by apply (Hat j o').
    + apply (f_equal (λ l, l !! j)) in Hvals.
      rewrite !list_lookup_fmap, Hoj, Hj in Hvals. done.
  - intros sh Hsh. unfold hashes in Hsh. rewrite Hrefs, fmap_app in Hsh.
    rewrite drop_app_length' in Hsh by (by rewrite length_fmap).
    apply list_elem_of_fmap in Hsh as (d & -> & Hd). simpl.
    rewrite Forall_forall in Hstaged. by apply Hstaged.
Qed.

(** X13. Append, save, read: after a successful [Append] of one object
    and a successful [Save], with a backend that serves views, the Root
    ends with the reference to the object and [get] of its hash returns
    the object's encoding, now from the store. *)
Theorem Append_Save_get p o p1 now p2 root :
  Append p [o] = (p1, None) →
  Save now p1 = (p2, root, None) →
  views_work p →
  ∃ sch val, encode o = inr (sch, val)
             ∧ hashes p2 = hashes p ++ [(sch, SumSHA256 val)]
             ∧ unsaved p2 = ∅
             ∧ objects (c p2) !! SumSHA256 val = Some val
             ∧ get p2 (SumSHA256 val) = (Some val, None).
Proof.
  intros Happ Hsave Hv.
  assert (Hone : ∃ sch val, encode o = inr (sch, val)
    ∧ hashes p1 = hashes p ++ [(sch, SumSHA256 val)]
    ∧ unsaved p1 !! SumSHA256 val = Some val ∧ c p1 = c p).
  { revert Happ. unfold Append. simpl.
    set (p0 := set_heap (heap p ++ [mkWalkNode None None]) p).
    set (dr0 := mkDynamic cipher.zero cipher.zero (Some (length (heap p)))).
    pose proof (SetValue_cases p0 dr0 o) as Hset.
    destruct (encode o) as [er|[sch val]]; [by rewrite Hset|].
    destruct Hset as (q & -> & Hc & Hr & _ & _ & Hu). simpl.
    intros [= <-]. exists sch, val.
    set (refs1 := Refs (r q) ++ [mkDynamic sch (SumSHA256 val)
                                   (Some (length (heap p)))]).
    set (q1 := set_Refs refs1 q).
    destruct (reattach_side refs1 q1 0) as (Hc1 & _ & Hu1 & _).
    destruct (reattach_frame refs1 q1 0) as [Hr1 _].
    split_and!; [done| | |].
    - unfold hashes. rewrite Hr1. subst q1 refs1. simpl. rewrite Hr.
      subst p0. simpl. by rewrite fmap_app.
    - rewrite Hu1. subst q1. simpl. rewrite Hu. apply lookup_insert_eq.
    - rewrite Hc1. subst q1. simpl. by rewrite Hc. }
  destruct Hone as (sch & val & Henc & Hh & Hstaged & Hc).
  exists sch, val. apply Save_ok in Hsave as (-> & _).
  assert (Hstored : (unsaved p1 ∪ objects (c p1)) !! SumSHA256 val = Some val)
    by by apply lookup_union_Some_l.
  split_and!; try done.
  rewrite get_cases; simpl.
  - by rewrite lookup_empty, Hstored.
  - unfold views_work in *. simpl. by rewrite Hc.
Qed.

(** [Pop] when the last reference has a walk node. *)
Lemma Pop_unpacked p d l :
  Refs (r p) ≠ [] →
  Refs (r p) !!! (length (Refs (r p)) - 1)%nat = d →
  dr_walkNode d = Some l →
  Pop p = (set_Refs (take (length (Refs (r p)) - 1) (Refs (r p)))
                    (Detach p d), d, None).
Proof.
  intros Hne Hd Hl. unfold Pop.
  destruct (length (Refs (r p)) =? 0)%nat eqn:Hn.
  { apply Nat.eqb_eq, nil_length_inv in Hn. done. }
  rewrite Hd, Hl. unfold Detach. rewrite Hl. unfold set_Refs, set_r. simpl.
  by rewrite take_insert_ge.
Qed.

(** [Pop] when the last reference has none: the node it allocates, and
    the error of [Value]. *)
Lemma Pop_unresolved p d :
  Refs (r p) ≠ [] →
  Refs (r p) !!! (length (Refs (r p)) - 1)%nat = d →
  dr_walkNode d = None →
  (Pop p).1.2 = mkDynamic (SchemaRef d) (Object d) (Some (length (heap p)))
  ∧ (∀ e, (Pop p).2 = Some e → e ≠ ErrIndexOutOfRange ∧ e ≠ ErrViewOnlyTree).
Proof.
  intros Hne Hd Hl. unfold Pop.
  destruct (length (Refs (r p)) =? 0)%nat eqn:Hn.
  { apply Nat.eqb_eq, nil_length_inv in Hn. done. }
  rewrite Hd, Hl.
  destruct (Value (new_walkNode p).1
              (mkDynamic (SchemaRef d) (Object d) (Some (new_walkNode p).2)))
    as [[[q dr] v] err] eqn:Hv.
  unfold new_walkNode in *. simpl in *. rewrite Hv. simpl.
  destruct err as [e|].
  - apply Value_fail in Hv as (_ & -> & _ & He1 & He2). split; [done|].
    by intros ? [= <-].
  - eapply Value_ok_node in Hv as (-> & _); [|done]. done.
Qed.

(** [Pop] writes nothing. *)
Lemma Pop_side p :
  c (Pop p).1.1 = c p ∧ flags (Pop p).1.1 = flags p
  ∧ unsaved (Pop p).1.1 = unsaved p ∧ cache (Pop p).1.1 = cache p.
Proof.
  unfold Pop. destruct (length (Refs (r p)) =? 0)%nat; [done|].
  set (n := (length (Refs (r p)) - 1)%nat).
  destruct (dr_walkNode (Refs (r p) !!! n)) as [l0|] eqn:Hl0.
  - simpl. unfold Detach. by rewrite Hl0.
  - destruct (Value (new_walkNode p).1
                (mkDynamic (SchemaRef (Refs (r p) !!! n))
                           (Object (Refs (r p) !!! n))
                           (Some (new_walkNode p).2)))
      as [[[q dr] v] err] eqn:Hv.
    unfold new_walkNode in *. simpl in *. rewrite Hv. simpl.
    by apply Value_frame in Hv as (-> & _ & -> & -> & -> & _).
Qed.

(** X14. What [Pop] returns from a list that is not empty: a reference
    with the hashes of the last entry and always with a walk node; the
    store and the write buffer are not written.  If the last entry had a
    walk node, there is no error, the entry itself is returned, and it
    is detached: its node records no index.  An error means that the
    last entry was Unresolved and could not be resolved. *)
Theorem Pop_result p :
  Refs (r p) ≠ [] →
  let last := Refs (r p) !!! (length (Refs (r p)) - 1)%nat in
  SchemaRef (Pop p).1.2 = SchemaRef last
  ∧ Object (Pop p).1.2 = Object last
  ∧ unpacked (Pop p).1.2
  ∧ c (Pop p).1.1 = c p ∧ unsaved (Pop p).1.1 = unsaved p
  ∧ (unpacked last →
     (Pop p).2 = None ∧ (Pop p).1.2 = last
     ∧ recorded_index (Pop p).1.1 (Pop p).1.2 = None)
  ∧ (∀ e, (Pop p).2 = Some e →
          dr_walkNode last = None
          ∧ e ≠ ErrIndexOutOfRange ∧ e ≠ ErrViewOnlyTree).
Proof.
  intros Hne last. destruct (Pop_side p) as (Hc & _ & Hu & _).
  destruct (dr_walkNode last) as [l|] eqn:Hl.
  - rewrite (Pop_unpacked p last l Hne eq_refl Hl). simpl.
    unfold recorded_index, node, Detach. rewrite Hl. simpl.
    split_and!; try done; [by exists l|].
    intros _. split_and!; try done.
    rewrite list_lookup_alter_eq. by destruct (heap p !! l).
  - destruct (Pop_unresolved p last Hne eq_refl Hl) as [-> Herr].
    simpl. split_and!; try done.
    + by eexists.
    + intros [l' Hl']. congruence.
    + intros e He. split; [done|]. by apply Herr.
Qed.

Lemma pops_refs n : ∀ p,
  Refs (r (pops n p)) = take (length (Refs (r p)) - n) (Refs (r p)).
Proof.
  induction n as [|n IH]; intros p.
  { simpl. by rewrite Nat.sub_0_r, firstn_all. }
  change (pops (S n) p) with (Pop (pops n p)).1.1.
  rewrite Pop_r. simpl. rewrite IH, length_take, take_take. f_equal. lia.
Qed.

(** The references a successful [Append] adds have walk nodes. *)
Lemma Append_new_unpacked p objs p' i d :
  Append p objs = (p', None) →
  Refs (r p') !! i = Some d → (length (Refs (r p)) ≤ i)%nat → unpacked d.
Proof.
  unfold Append. destruct objs as [|o objs].
  { simpl. intros [= <-] Hi Hge. apply lookup_lt_Some in Hi. lia. }
  change (length (o :: objs) =? 0)%nat with false. cbv iota.
  destruct (Append_build p (o :: objs) []) as [[q drs] [e|]] eqn:Hb; [done|].
  intros [= <-].
  apply Append_build_ok in Hb as (Hr & _ & new & -> & Hnew).
  rewrite app_nil_l. simpl.
  destruct (reattach_frame (Refs (r q) ++ new)
              (set_Refs (Refs (r q) ++ new) q) 0) as [-> _].
  simpl. rewrite Hr. intros Hi Hge. rewrite lookup_app_r in Hi by done.
  apply (f_equal (λ l, l !! (i - length (Refs (r p)))%nat)) in Hnew.
  rewrite !list_lookup_fmap, Hi in Hnew.
  destruct (seq (length (heap p)) (length (o :: objs))
            !! (i - length (Refs (r p)))%nat) as [l|]; simplify_eq/=.
  by exists l.
Qed.

(** X15. [Pop] is the opposite of [Append]: after a successful [Append]
    of n objects, n calls of [Pop] give the Root its references back;
    and the first of them returns, without an error, the reference of
    the last object appended, detached. *)
Theorem Pop_undoes_Append p objs p1 :
  Append p objs = (p1, None) →
  Refs (r (pops (length objs) p1)) = Refs (r p)
  ∧ ∀ o, last objs = Some o →
         (Pop p1).2 = None
         ∧ ref_of o = Some (SchemaRef (Pop p1).1.2, Object (Pop p1).1.2)
         ∧ recorded_index (Pop p1).1.1 (Pop p1).1.2 = None.
Proof.
  intros Happ. pose proof (Append_run p objs) as Hrun. simpl in Hrun.
  rewrite Happ in Hrun. simpl in Hrun.
  destruct Hrun as (_ & _ & _ & _ & _ & _ & new & Hrefs & Hnew & _).
  assert (Hlen : length new = length objs).
  { apply (f_equal length) in Hnew. by rewrite !length_fmap in Hnew. }
  split.
  - rewrite pops_refs, Hrefs, length_app, Hlen.
    replace (length (Refs (r p)) + length objs - length objs)%nat
      with (length (Refs (r p))) by lia.
    by rewrite take_app_length.
  - intros o Ho. rewrite last_lookup in Ho.
    assert (Hpos : (0 < length objs)%nat).
    { apply lookup_lt_Some in Ho. lia. }
    set (k := (length (Refs (r p1)) - 1)%nat).
    assert (Hk : k = (length (Refs (r p)) + pred (length objs))%nat).
    { unfold k. rewrite Hrefs, length_app, Hlen. lia. }
    destruct (lookup_lt_is_Some_2 (Refs (r p1)) k) as [d Hd].
    { rewrite Hrefs, length_app, Hlen. lia. }
    assert (Hne : Refs (r p1) ≠ []).
    { intros Hnil. by rewrite Hnil in Hd. }
    destruct (Append_new_unpacked _ _ _ _ _ Happ Hd) as [l Hl]; [lia|].
    assert (Hlast : Refs (r p1) !!! k = d)
      by by apply list_lookup_total_correct.
    assert (Hd' : new !! pred (length objs) = Some d).
    { rewrite Hrefs, Hk, lookup_app_r in Hd by lia.
      by replace (length (Refs (r p)) + pred (length objs)
                  - length (Refs (r p)))%nat
           with (pred (length objs)) in Hd by lia. }
    apply (f_equal (λ x, x !! pred (length objs))) in Hnew.
    rewrite !list_lookup_fmap, Hd', Ho in Hnew. simpl in Hnew.
    injection Hnew as Hnew.
    rewrite (Pop_unpacked p1 d l Hne Hlast Hl). simpl.
    split_and!; try done.
    unfold recorded_index, node, Detach. rewrite Hl. simpl.
    rewrite list_lookup_alter_eq. by destruct (heap p1 !! l).
Qed.

(** *** Who writes to the store *)

Lemma RefByIndex_side p i :
  c (RefByIndex p i).1.1 = c p ∧ flags (RefByIndex p i).1.1 = flags p
  ∧ unsaved (RefByIndex p i).1.1 = unsaved p.
Proof.
  destruct (decide (0 ≤ i < Z.of_nat (length (Refs (r p))))) as [Hin|Hout];
    [|by rewrite RefByIndex_out].
  destruct (lookup_lt_is_Some_2 (Refs (r p)) (Z.to_nat i)) as [d Hd]; [lia|].
  rewrite (RefByIndex_in p i d Hin Hd).
  destruct (dr_walkNode d) as [l|] eqn:Hl; [done|].
  destruct (Value p d) as [[[q d'] v] err] eqn:Hv. simpl.
  by apply Value_frame in Hv as (-> & _ & -> & -> & _).
Qed.

Lemma Refs_loop_side idx : ∀ p,
  c (Refs_loop p idx).1 = c p ∧ flags (Refs_loop p idx).1 = flags p
  ∧ unsaved (Refs_loop p idx).1 = unsaved p.
Proof.
  induction idx as [|i rest IH]; intros p; simpl; [done|].
  destruct (dr_walkNode (Refs (r p) !!! i)) as [l|] eqn:Hl; [apply IH|].
  destruct (Value p (Refs (r p) !!! i)) as [[[q d'] v] err] eqn:Hv.
  apply Value_frame in Hv as (Hc & _ & Hf & Hu & _).
  destruct err; simpl; [done|].
  destruct (IH (set_Refs (<[i := d']> (Refs (r q))) q)) as (-> & -> & ->).
  done.
Qed.

Lemma Pack_Refs_side p :
  c (Pack_Refs p).1.1 = c p ∧ flags (Pack_Refs p).1.1 = flags p
  ∧ unsaved (Pack_Refs p).1.1 = unsaved p.
Proof.
  unfold Pack_Refs.
  pose proof (Refs_loop_side (seq 0 (length (Refs (r p)))) p) as Hloop.
  by destruct (Refs_loop p (seq 0 (length (Refs (r p))))).
Qed.

Lemma init_side p :
  c (init p).1 = c p ∧ flags (init p).1 = flags p
  ∧ unsaved (init p).1 = unsaved p.
Proof.
  unfold init. destruct (has_flag (flags p) EntireTree); [|done].
  pose proof (Pack_Refs_side p) as Hrefs.
  by destruct (Pack_Refs p) as [[q drs] err].
Qed.

(** One call: the flags stay, and the store stays unless the call is a
    [Save] on a Pack that is not view-only. *)
Lemma after_side p cl :
  flags (after p cl) = flags p
  ∧ (is_save cl = false ∨ has_flag (flags p) ViewOnly = true →
     c (after p cl) = c p).
Proof.
  destruct cl as [objs| |i| |now]; simpl.
  - pose proof (Append_run p objs) as Hrun. simpl in Hrun.
    by destruct Hrun as (-> & -> & _).
  - by destruct (Pop_side p) as (-> & -> & _).
  - by destruct (RefByIndex_side p i) as (-> & -> & _).
  - by destruct (Pack_Refs_side p) as (-> & -> & _).
  - destruct (Save now p) as [[p' root] err] eqn:Hs. simpl.
    pose proof (Save_inv _ _ _ _ _ Hs) as (_ & Hf & _). split; [done|].
    intros [|Hv]; [done|]. revert Hs. unfold Save. rewrite Hv.
    by intros [= <- _ _].
Qed.

Lemma foldl_after_side calls : ∀ p,
  flags (foldl after p calls) = flags p
  ∧ (Forall (λ cl, is_save cl = false) calls
     ∨ has_flag (flags p) ViewOnly = true →
     c (foldl after p calls) = c p).
Proof.
  induction calls as [|cl calls IH]; intros p; simpl; [done|].
  destruct (IH (after p cl)) as [Hf Hc].
  destruct (after_side p cl) as [Hf1 Hc1]. rewrite Hf, Hf1. split; [done|].
  intros Hcond. rewrite Hc, Hc1; [done| |].
  - destruct Hcond as [Hall|Hv]; [|by right].
    apply Forall_cons in Hall as [? _]. by left.
  - destruct Hcond as [Hall|Hv]; [|right; by rewrite Hf1].
    apply Forall_cons in Hall as [_ ?]. by left.
Qed.

(** X16. Only [Save] writes to the store, and never on a view-only Pack:
    through any sequence of calls that holds no [Save], and through any
    sequence of calls at all when [ViewOnly] is set, the store is what
    it was when the Pack was opened; and no call changes the flags. *)
Theorem store_written_by_Save_only p calls :
  flags (session p calls) = flags p
  ∧ (Forall (λ cl, is_save cl = false) calls ∨ Z.land (flags p) ViewOnly ≠ 0 →
     c (session p calls) = c p).
Proof.
  unfold session. destruct (init_side p) as (Hc & Hf & _).
  destruct (foldl_after_side calls (init p).1) as [Hf' Hc'].
  rewrite Hf', Hf. split; [done|]. intros Hcond. rewrite Hc', Hc; [done|].
  destruct Hcond as [Hall|Hv]; [by left|right].
  rewrite Hf. unfold has_flag.
  by destruct (Z.eqb_spec (Z.land (flags p) ViewOnly) 0).
Qed.

(** *** The flags *)

(** X17. The flags form a set of bits: a flag is set in [a | b] exactly
    when it is set in [a] or in [b]; the five flags are different single
    bits, none of which holds another; and [Default] holds [GoTypes]
    and no other flag. *)
Theorem flags_bitset :
  (∀ a b f : Flag, has_flag (Z.lor a b) f = has_flag a f || has_flag b f)
  ∧ (∀ f g, f ∈ all_flags → g ∈ all_flags →
            has_flag f g = bool_decide (f = g))
  ∧ (∀ f, f ∈ all_flags → has_flag Default f = bool_decide (f = GoTypes)).
Proof.
  split_and!.
  - intros a b f. unfold has_flag. rewrite Z.land_lor_distr_l.
    destruct (Z.eqb_spec (Z.lor (Z.land a f) (Z.land b f)) 0) as [H0|H0].
    + apply Z.lor_eq_0_iff in H0 as [-> ->]. done.
    + destruct (Z.eqb_spec (Z.land a f) 0) as [Ha|Ha];
        destruct (Z.eqb_spec (Z.land b f) 0) as [Hb|Hb]; try done.
      by rewrite Ha, Hb in H0.
  - intros f g Hf Hg. unfold all_flags in *.
    repeat (apply elem_of_cons in Hf as [->|Hf]);
      [| | | | |by apply elem_of_nil in Hf];
      repeat (apply elem_of_cons in Hg as [->|Hg]);
      try (by apply elem_of_nil in Hg); by vm_compute.
  - intros f Hf. unfold all_flags in *.
    repeat (apply elem_of_cons in Hf as [->|Hf]);
      try (by apply elem_of_nil in Hf); by vm_compute.
Qed.

(** *** unpack and Dynamic *)

(** X18. [unpack] consults the flags only after [get]: when the object is
    not found it returns the error of [get] whatever the flags are; it
    panics exactly when the object is found and [GoTypes] is not set;
    and with [GoTypes] set it hands the bytes found to [unpackToGo]. *)
Theorem unpack_cases (unpackToGo : string → bytes → option obj * option error)
    p (name : string) (hash : SHA256) :
  (∀ e, (get p hash).2 = Some e →
        unpack unpackToGo p name hash = Returns (None, Some e))
  ∧ (unpack unpackToGo p name hash = Panics
     ↔ (get p hash).2 = None ∧ Z.land (flags p) GoTypes = 0)
  ∧ (∀ val, get p hash = (Some val, None) →
            Z.land (flags p) GoTypes ≠ 0 →
            unpack unpackToGo p name hash = Returns (unpackToGo name val)).
Proof.
  unfold unpack, has_flag.
  destruct (get p hash) as [val [e|]]; simpl.
  - split_and!; [by intros ? [= ->]| |done]. split; [done|]. by intros [[=] _].
  - destruct (Z.eqb_spec (Z.land (flags p) GoTypes) 0) as [Hz|Hz]; simpl.
    + split_and!; [done|done|]. intros val' [= ->] Hnz. done.
    + split_and!; [done| |by intros val' [= ->] _].
      split; [done|]. by intros [_ ?].
Qed.

(** X19. For an object that encodes, [Pack.Dynamic] returns a reference
    on a fresh walk node that carries the schema of the encoding and the
    hash of its bytes and caches the object; it stages exactly these
    bytes under that hash, so that [get] of the hash returns them, and
    it touches neither the Root nor the store. *)
Theorem Pack_Dynamic_result p o sch val :
  encode o = inr (sch, val) →
  (Pack_Dynamic p o).2
  = mkDynamic sch (SumSHA256 val) (Some (length (heap p)))
  ∧ cached (Pack_Dynamic p o).1 (Pack_Dynamic p o).2 = Some o
  ∧ unsaved (Pack_Dynamic p o).1 = <[SumSHA256 val := val]> (unsaved p)
  ∧ get (Pack_Dynamic p o).1 (SumSHA256 val) = (Some val, None)
  ∧ r (Pack_Dynamic p o).1 = r p ∧ c (Pack_Dynamic p o).1 = c p.
Proof.
  intros Henc. unfold Pack_Dynamic, SetValue, add, set, new_walkNode.
  simpl. rewrite Henc. simpl. split_and!; try done.
  - unfold cached, node. simpl.
    rewrite list_lookup_alter_eq, lookup_app_r, Nat.sub_diag by lia. done.
  - apply get_unsaved. simpl. apply lookup_insert_eq.
Qed.

End pack_facts.

(** *** The theorems at work on the small instance *)

(** C2, as the code has it: a successful [Save] leaves the sequence number
    of the Root where it was.  Here it starts at 0 and is 0 after one
    successful [Save], and still 0 after a second one. *)
Theorem Save_sequence_unchanged :
  let first := Save 1 abc_pack in
  let second := Save 2 first.1.1 in
  Seq (r abc_pack) = 0
  ∧ first.2 = None ∧ Seq (r first.1.1) = 0
  ∧ second.2 = None ∧ Seq (r second.1.1) = 0.
Proof. vm_compute. done. Qed.

(** C3, as the code has it: a successful [Save] returns the zero
    [RootPack], and nothing is stored under its hash: the store holds the
    three staged objects and [get] does not find the hash. *)
Theorem Save_root_not_stored :
  let saved := Save 1 abc_pack in
  saved.2 = None
  ∧ saved.1.2 = zeroRootPack
  ∧ size (objects (c saved.1.1)) = 3%nat
  ∧ objects (c saved.1.1) !! rp_Hash saved.1.2 = None
  ∧ get saved.1.1 (rp_Hash saved.1.2)
    = (None, Some (ErrObjectNotFound (rp_Hash saved.1.2))).
Proof. vm_compute. done. Qed.

Lemma Save_atomic_witness :
  (unsaved (Save 1 abc_failing).1.1 = unsaved abc_failing
   ∧ objects (c (Save 1 abc_failing).1.1) = objects (c abc_failing)
   ∧ cache (Save 1 abc_failing).1.1 = cache abc_failing)
  ∧ ((∀ key val, unsaved abc_pack !! key = Some val →
                 cache (Save 1 abc_pack).1.1 !! key = Some val)
     ∧ unsaved (Save 1 abc_pack).1.1 = ∅
     ∧ objects (c (Save 1 abc_pack).1.1)
       = unsaved abc_pack ∪ objects (c abc_pack)).
Proof.
  assert (Hcall : ∀ p : @Pack toy,
    Save 1 p = ((Save 1 p).1.1, (Save 1 p).1.2, (Save 1 p).2))
    by (intros p; by destruct (Save 1 p) as [[??]?]).
  split.
  - apply (proj1 (Save_atomic _ _ _ _ _ (Hcall abc_failing)) TxFailed).
    vm_compute. reflexivity.
  - apply (proj2 (Save_atomic _ _ _ _ _ (Hcall abc_pack))).
    vm_compute. reflexivity.
Defined.

Lemma reattachment_witness :
  (length (Refs (r abc_pack)) = (0 + 3)%nat
   ∧ (∀ i dr, Refs (r abc_pack) !! i = Some dr → unpacked dr →
              recorded_index abc_pack dr = Some i)
   ∧ (∀ i dr, Refs (r abc_pack) !! i = Some dr → (0 ≤ i)%nat → unpacked dr))
  ∧ (length (Refs (r abc_pack)) = 3%nat
     ∧ recorded_index (Pop abc_pack).1.1 <$> Refs (r (Pop abc_pack).1.1)
       = [Some 0%nat; Some 1%nat]).
Proof.
  assert (Hwf : nodes_wf empty_pack).
  { split; [apply NoDup_nil_2|apply Forall_nil_2]. }
  assert (Happ : Append empty_pack [obj_a; obj_b; obj_c] = (abc_pack, None)).
  { vm_compute. reflexivity. }
  split.
  - apply (proj1 (reattachment empty_pack) [obj_a; obj_b; obj_c] abc_pack);
      [discriminate|exact Hwf|exact Happ].
  - apply (proj2 (reattachment empty_pack) obj_a obj_b obj_c abc_pack);
      [reflexivity|exact Happ].
Defined.

(** C5, as the claim states it, fails on the code.  The second loop of
    [Append] attaches only the entries that have a walk node: on a Pack
    just opened over two stored references, a successful [Append] of one
    object leaves the two old entries without a recorded index, so not
    every entry records its position.  And [Append] of no object returns
    at once: on a Pack opened with [EntireTree], whose two references
    are unpacked, the entries record no index after it. *)
Lemma reattachment_counterexample :
  (let p' := (Append (two_refs Default) [obj_a]).1 in
   (Append (two_refs Default) [obj_a]).2 = None
   ∧ recorded_index p' <$> Refs (r p') = [None; None; Some 2%nat]
   ∧ ¬ (∀ i dr, Refs (r p') !! i = Some dr → recorded_index p' dr = Some i))
  ∧ (let eager := (init (two_refs (Z.lor Default EntireTree))).1 in
     let p' := (Append eager []).1 in
     (Append eager []).2 = None
     ∧ Forall unpacked (Refs (r p'))
     ∧ recorded_index p' <$> Refs (r p') = [None; None]
     ∧ ¬ (∀ i dr, Refs (r p') !! i = Some dr →
                  recorded_index p' dr = Some i)).
Proof.
  split.
  - split_and!; [by vm_compute|by vm_compute|].
    intros Hall.
    specialize (Hall 0%nat (mkDynamic 7%N 101%N None) eq_refl).
    vm_compute in Hall. discriminate.
  - split_and!; [by vm_compute| |by vm_compute|].
    + repeat constructor; by eexists.
    + intros Hall.
      specialize (Hall 0%nat (mkDynamic 7%N 101%N (Some 0%nat)) eq_refl).
      vm_compute in Hall. discriminate.
Qed.

Lemma lazy_vs_eager_witness :
  (init (two_refs Default) = (two_refs Default, None)
   ∧ (RefByIndex (two_refs Default) 0).2 = None
   ∧ cached (RefByIndex (two_refs Default) 0).1.1
            (Refs (r (RefByIndex (two_refs Default) 0).1.1) !!! 0%nat)
     = Some obj_a
   ∧ dr_walkNode (Refs (r (RefByIndex (two_refs Default) 0).1.1) !!! 1%nat)
     = None
   ∧ ¬ resolved (RefByIndex (two_refs Default) 0).1.1
                (Refs (r (RefByIndex (two_refs Default) 0).1.1) !!! 1%nat))
  ∧ (let eager := two_refs (Z.lor Default EntireTree) in
     (init eager).2 = None
     ∧ Forall (resolved (init eager).1) (Refs (r (init eager).1))
     ∧ (Pack_Refs (init eager).1).2 = None
     ∧ Forall (resolved (Pack_Refs (init eager).1).1.1)
              (Refs (r (Pack_Refs (init eager).1).1.1))).
Proof.
  assert (Hopen : ∀ fl, just_opened (two_refs fl)).
  { intros fl. repeat constructor. }
  assert (Hpair : ∀ {A B C} (x : A * B * C), x = (x.1.1, x.1.2, x.2)).
  { by intros A B C [[??]?]. }
  split.
  - destruct (proj1 (lazy_vs_eager (two_refs Default) (Hopen _))
                eq_refl ltac:(simpl; lia)) as [Hinit Hcall].
    destruct (Hcall _ _ _ (Hpair _ _ _ (RefByIndex (two_refs Default) 0)))
      as (Hone & Hnot & _ & _ & Hzero).
    destruct (Hzero obj_a obj_a eq_refl eq_refl) as [Herr Hval].
    by split_and!.
  - destruct (proj2 (lazy_vs_eager (two_refs (Z.lor Default EntireTree))
                       (Hopen _)) ltac:(by vm_compute)) as [Hok Hafter].
    assert (Herr : (init (two_refs (Z.lor Default EntireTree))).2 = None).
    { apply Hok. apply Forall_cons. split.
      { exists obj_a, obj_a. split; [vm_compute|]; reflexivity. }
      apply Forall_cons. split; [|apply Forall_nil_2].
      exists obj_b, obj_b. split; [vm_compute|]; reflexivity. }
    destruct (Hafter (init (two_refs (Z.lor Default EntireTree))).1)
      as [Hall Hrefs].
    { rewrite <- Herr. by destruct (init _). }
    destruct (Hrefs _ _ _ (Hpair _ _ _ (Pack_Refs _))) as [Herr2 Hall2].
    by split_and!.
Defined.

Lemma Save_view_only_witness :
  Save 1 abc_view_only = (abc_view_only, zeroRootPack, Some ErrViewOnlyTree)
  ∧ c (Save 1 abc_view_only).1.1 = c abc_view_only.
Proof. apply Save_view_only. vm_compute. discriminate. Defined.

Lemma Pop_empty_witness :
  Pop empty_pack = (empty_pack, blank, None)
  ∧ Refs (r (Pop empty_pack).1.1) = [].
Proof. apply Pop_empty. reflexivity. Defined.

Lemma RefByIndex_range_witness :
  (RefByIndex (two_refs Default) 2).2 = Some ErrIndexOutOfRange
  ∧ ∃ d, Refs (r (two_refs Default)) !! Z.to_nat 1 = Some d
         ∧ Refs (r (RefByIndex (two_refs Default) 1).1.1) !! Z.to_nat 1
           = Some (RefByIndex (two_refs Default) 1).1.2
         ∧ Object (RefByIndex (two_refs Default) 1).1.2 = Object d
         ∧ SchemaRef (RefByIndex (two_refs Default) 1).1.2 = SchemaRef d
         ∧ (RefByIndex (two_refs Default) 1).2
           = if unpackedb d then None else (Value (two_refs Default) d).2.
Proof.
  split.
  - apply (proj1 (RefByIndex_range (two_refs Default) 2)). simpl. lia.
  - apply (proj2 (RefByIndex_range (two_refs Default) 1)). simpl. lia.
Defined.

Lemma Pop_frame_witness :
  let refs' := Refs (r (Pop abc_pack).1.1) in
  length refs' = (length (Refs (r abc_pack)) - 1)%nat
  ∧ refs' = take (length (Refs (r abc_pack)) - 1) (Refs (r abc_pack))
  ∧ ∀ i, (i < length (Refs (r abc_pack)) - 1)%nat →
         refs' !! i = Refs (r abc_pack) !! i
         ∧ Object <$> refs' !! i = Object <$> Refs (r abc_pack) !! i
         ∧ SchemaRef <$> refs' !! i = SchemaRef <$> Refs (r abc_pack) !! i.
Proof. apply Pop_frame. vm_compute. discriminate. Defined.

(** *** The further properties at work on the small instance *)

Lemma get_read_through_witness :
  get abc_pack 101%N = (Some obj_a, None).
Proof.
  apply (proj1 (proj2 (get_read_through abc_pack 101%N
                         ltac:(by vm_compute)))).
  vm_compute. reflexivity.
Defined.

Lemma set_del_laws_witness :
  del (set empty_pack 5%N obj_a) 5%N = empty_pack.
Proof.
  apply (proj1 (proj2 (proj2 (set_del_laws empty_pack 5%N obj_a)))).
  reflexivity.
Defined.

Lemma Save_keeps_get_witness :
  views_work (Save 1 abc_pack).1.1
  ∧ get (Save 1 abc_pack).1.1 102%N = get abc_pack 102%N.
Proof.
  apply (Save_keeps_get 1 abc_pack (Save 1 abc_pack).1.1
           (Save 1 abc_pack).1.2).
  - vm_compute. reflexivity.
  - by vm_compute.
Defined.

Lemma Save_stamps_Time_witness :
  (Save 7 abc_failing).2 = Some (ErrTx TxFailed)
  ∧ Time (r abc_failing) = 0
  ∧ Time (r (Save 7 abc_failing).1.1) = 7
  ∧ Refs (r (Save 7 abc_failing).1.1) = Refs (r abc_failing)
  ∧ heap (Save 7 abc_failing).1.1 = heap abc_failing.
Proof.
  split; [by vm_compute|]. split; [reflexivity|].
  apply Save_stamps_Time. reflexivity.
Defined.

Lemma Save_again_witness :
  let q := set_c (mkDB (objects (c (Save 1 abc_pack).1.1)) FailCommit)
                 (Save 1 abc_pack).1.1 in
  (Save 2 q).1.1 = set_Time 2 q
  ∧ ((Save 2 q).2 = None ↔ FailCommit ≠ FailBegin ∧ FailCommit ≠ FailCommit).
Proof.
  apply (Save_again 1 2 abc_pack (Save 1 abc_pack).1.1
           (Save 1 abc_pack).1.2 FailCommit).
  vm_compute. reflexivity.
Defined.

Lemma RefByIndex_error_keeps_witness :
  (RefByIndex dangling 1).1.1 = dangling
  ∧ (RefByIndex dangling 7).1.1 = dangling.
Proof.
  split.
  - apply (RefByIndex_error_keeps dangling 1 (ErrObjectNotFound 999%N)).
    vm_compute. reflexivity.
  - apply (RefByIndex_error_keeps dangling 7 ErrIndexOutOfRange).
    vm_compute. reflexivity.
Defined.

Lemma RefByIndex_again_witness :
  let first := RefByIndex (two_refs Default) 0 in
  RefByIndex first.1.1 0 = (first.1.1, first.1.2, None).
Proof.
  apply (RefByIndex_again (two_refs Default) 0). vm_compute. reflexivity.
Defined.

Lemma Pack_Refs_settles_witness :
  let first := Pack_Refs (two_refs Default) in
  first.1.2 = []
  ∧ Forall unpacked (Refs (r first.1.1))
  ∧ Pack_Refs first.1.1 = (first.1.1, [], None).
Proof.
  apply (Pack_Refs_settles (two_refs Default)). vm_compute. reflexivity.
Defined.


Lemma Append_all_or_nothing_witness :
  r (Append abc_pack [obj_a; []]).1 = r abc_pack
  ∧ ∃ o er, o ∈ [obj_a; []] ∧ @encode toy o = inl er
            ∧ ErrRegistry UnregisteredType = ErrRegistry er.
Proof.
  apply (proj2 (Append_all_or_nothing abc_pack [obj_a; []])).
  vm_compute. reflexivity.
Defined.

Lemma Append_hashes_witness :
  Some <$> hashes abc_pack
  = (Some <$> hashes empty_pack) ++ (@ref_of toy <$> [obj_a; obj_b; obj_c])
  ∧ unsaved abc_pack !! @SumSHA256 toy obj_b = Some obj_b
  ∧ c abc_pack = c empty_pack.
Proof.
  destruct (Append_hashes empty_pack [obj_a; obj_b; obj_c] abc_pack)
    as (Hh & _ & Hbytes & _ & Hc).
  { vm_compute. reflexivity. }
  split_and!; [exact Hh| |exact Hc].
  apply (Hbytes 1%nat obj_b obj_b); [reflexivity|reflexivity|].
  intros j o' val' Hlt Hj Ho' Hsame.
  destruct j as [|[|[|j]]]; [lia|lia| |by simpl in Hj].
  simpl in Hj. injection Hj as <-. vm_compute in Ho'. injection Ho' as <-.
  vm_compute in Hsame. discriminate.
Defined.

Lemma Append_Save_get_witness :
  let p1 := (Append empty_pack [obj_b]).1 in
  let p2 := (Save 1 p1).1.1 in
  ∃ sch val, @encode toy obj_b = inr (sch, val)
             ∧ hashes p2 = hashes empty_pack ++ [(sch, @SumSHA256 toy val)]
             ∧ unsaved p2 = ∅
             ∧ objects (c p2) !! @SumSHA256 toy val = Some val
             ∧ get p2 (@SumSHA256 toy val) = (Some val, None).
Proof.
  apply (Append_Save_get empty_pack obj_b (Append empty_pack [obj_b]).1 1
           (Save 1 (Append empty_pack [obj_b]).1).1.1
           (Save 1 (Append empty_pack [obj_b]).1).1.2).
  - vm_compute. reflexivity.
  - vm_compute. reflexivity.
  - by vm_compute.
Defined.

Lemma Pop_result_witness :
  let last := Refs (r abc_pack) !!! (length (Refs (r abc_pack)) - 1)%nat in
  SchemaRef (Pop abc_pack).1.2 = SchemaRef last
  ∧ Object (Pop abc_pack).1.2 = Object last
  ∧ unpacked (Pop abc_pack).1.2
  ∧ c (Pop abc_pack).1.1 = c abc_pack
  ∧ unsaved (Pop abc_pack).1.1 = unsaved abc_pack
  ∧ (unpacked last →
     (Pop abc_pack).2 = None ∧ (Pop abc_pack).1.2 = last
     ∧ recorded_index (Pop abc_pack).1.1 (Pop abc_pack).1.2 = None)
  ∧ (∀ e, (Pop abc_pack).2 = Some e →
          dr_walkNode last = None
          ∧ e ≠ ErrIndexOutOfRange ∧ e ≠ ErrViewOnlyTree).
Proof. apply Pop_result. by vm_compute. Defined.

Lemma Pop_undoes_Append_witness :
  Refs (r (pops 3 abc_pack)) = Refs (r empty_pack)
  ∧ ∀ o, last [obj_a; obj_b; obj_c] = Some o →
         (Pop abc_pack).2 = None
         ∧ @ref_of toy o
           = Some (SchemaRef (Pop abc_pack).1.2, Object (Pop abc_pack).1.2)
         ∧ recorded_index (Pop abc_pack).1.1 (Pop abc_pack).1.2 = None.
Proof.
  apply (Pop_undoes_Append empty_pack [obj_a; obj_b; obj_c]).
  vm_compute. reflexivity.
Defined.

Lemma store_written_by_Save_only_witness :
  c (session abc_view_only busy_calls) = c abc_view_only
  ∧ c (session abc_pack [@CallAppend toy [obj_a]; CallPop; CallRefs])
    = c abc_pack.
Proof.
  split.
  - apply (proj2 (store_written_by_Save_only abc_view_only busy_calls)).
    right. by vm_compute.
  - apply (proj2 (store_written_by_Save_only abc_pack
                    [@CallAppend toy [obj_a]; CallPop; CallRefs])).
    left. repeat constructor.
Defined.

Lemma flags_bitset_witness :
  @has_flag ViewOnly EntireTree = bool_decide (@ViewOnly = @EntireTree)
  ∧ @has_flag Default ViewOnly = bool_decide (@ViewOnly = @GoTypes).
Proof.
  split.
  - apply (proj1 (proj2 flags_bitset)); unfold all_flags; set_solver.
  - apply (proj2 (proj2 flags_bitset)); unfold all_flags; set_solver.
Defined.

Lemma unpack_cases_witness :
  unpack toy_unpackToGo (two_refs EntireTree) "person" 101%N = Panics
  ∧ unpack toy_unpackToGo (two_refs Default) "person" 101%N
    = Returns (toy_unpackToGo "person" obj_a).
Proof.
  split.
  - apply (proj1 (proj2 (unpack_cases toy_unpackToGo (two_refs EntireTree)
                           "person" 101%N))).
    by vm_compute.
  - apply (proj2 (proj2 (unpack_cases toy_unpackToGo (two_refs Default)
                           "person" 101%N))).
    + vm_compute. reflexivity.
    + by vm_compute.
Defined.

Lemma Pack_Dynamic_result_witness :
  (Pack_Dynamic empty_pack obj_b).2 = mkDynamic 7%N 102%N (Some 0%nat)
  ∧ cached (Pack_Dynamic empty_pack obj_b).1 (Pack_Dynamic empty_pack obj_b).2
    = Some obj_b
  ∧ unsaved (Pack_Dynamic empty_pack obj_b).1
    = <[102%N := obj_b]> (unsaved empty_pack)
  ∧ get (Pack_Dynamic empty_pack obj_b).1 102%N = (Some obj_b, None)
  ∧ r (Pack_Dynamic empty_pack obj_b).1 = r empty_pack
  ∧ c (Pack_Dynamic empty_pack obj_b).1 = c empty_pack.
Proof. apply (Pack_Dynamic_result empty_pack obj_b 7%N obj_b). reflexivity. Defined.

Lemma Save_store_witness :
  objects (c (Save 1 abc_pack).1.1) !! 5%N = objects (c abc_pack) !! 5%N.
Proof. apply Save_store. vm_compute. reflexivity. Defined.

Lemma session_wf_witness :
  nodes_wf (session (two_refs (Z.lor Default EntireTree)) busy_calls).
Proof. apply session_wf. repeat constructor. Defined.

End skyobject.

(** ** The Container and the node, over the same backend *)

Module container_facts.

Import skyobjects.

Section facts.

Context `{Encoder}.

(** X23. Reading back what [Container.Save] stored gives the schema key
    and the data, when the encoder reads its own output and the slot of
    the key is free or already holds these very bytes. *)
Lemma Get_Save (c : Container) (schemaKey : SHA256) (val : bytes) :
  let h := mkhref schemaKey val in
  DeserializeRaw (Serialize h) = Some h →
  (∀ old, objects (ds c) !! SumSHA256 (Serialize h) = Some old →
          old = Serialize h) →
  Get (Save c schemaKey val).1 (Save c schemaKey val).2
  = (schemaKey, val, None).
Proof.
  intros h Hrt Hslot. unfold Save, Get, AddAutoKey, DBGet. simpl.
  fold h. destruct (objects (ds c) !! SumSHA256 (Serialize h)) as [old|] eqn:Hk.
  - simpl. rewrite Hk, (Hslot old eq_refl), Hrt. done.
  - simpl. rewrite lookup_insert_eq, Hrt. done.
Qed.

(** Over [AddAutoKey] as modelled, saving the same object again returns
    the same key and stores nothing. *)
Lemma Save_twice (c : Container) (schemaKey : SHA256) (val : bytes) :
  (Save (Save c schemaKey val).1 schemaKey val).2 = (Save c schemaKey val).2
  ∧ (Save (Save c schemaKey val).1 schemaKey val).1 = (Save c schemaKey val).1.
Proof.
  split; [done|]. unfold Save, AddAutoKey. simpl.
  destruct (objects (ds c) !! SumSHA256 (Serialize (mkhref schemaKey val)))
    as [old|] eqn:Hk; simpl.
  - by rewrite Hk.
  - by rewrite lookup_insert_eq.
Qed.

(** X22. [Container.Get] fails exactly when the database has no entry
    for the key; it then returns the zero key and no data.  For a key
    that is present it never fails: bytes that do not decode give the
    zero key and no data, without an error. *)
Theorem Get_cases (c : Container) (key : SHA256) :
  ((Get c key).2 = None ↔ is_Some (objects (ds c) !! key))
  ∧ (objects (ds c) !! key = None →
     Get c key = (cipher.zero, [], Some (NoObjectFound key)))
  ∧ (∀ stored, objects (ds c) !! key = Some stored →
               DeserializeRaw stored = None →
               Get c key = (cipher.zero, [], None))
  ∧ (∀ stored h, objects (ds c) !! key = Some stored →
                 DeserializeRaw stored = Some h →
                 Get c key = (SchemaKey h, Data h, None)).
Proof.
  unfold Get, DBGet. destruct (objects (ds c) !! key) as [stored|]; simpl.
  - split; [|split; [|split]].
    + split; eauto.
    + done.
    + intros x [= <-] Hx. by rewrite Hx.
    + intros x h [= <-] Hx. by rewrite Hx.
  - split; [|split; [|split]]; try done.
Qed.

(** What [AddAutoKey] leaves under the key it returns. *)
Lemma AddAutoKey_lookup (db : DB) (val : bytes) :
  objects (AddAutoKey db val).1 !! (AddAutoKey db val).2
  = Some (default val (objects db !! SumSHA256 val)).
Proof.
  unfold AddAutoKey. simpl.
  destruct (objects db !! SumSHA256 val) as [old|] eqn:Hk; simpl; [done|].
  by rewrite lookup_insert_eq.
Qed.

(** X25. [SaveSchema] records the name of the schema under the key it
    returns and leaves the other names, the root key and the root
    sequence alone; and, when the encoder reads its own output and the
    slot of the returned key was free or held these very bytes, [Get] of
    that key returns the schema's data under [_schemaType]. *)
Theorem SaveSchema_Get (_schemaType : SHA256) (c : Container)
    (name : string) (schemaData : bytes) :
  let saved := SaveSchema _schemaType c name schemaData in
  let h := mkhref _schemaType schemaData in
  schemas saved.1 !! saved.2 = Some name
  ∧ (∀ key, key ≠ saved.2 → schemas saved.1 !! key = schemas c !! key)
  ∧ rootKey saved.1 = rootKey c ∧ rootSeq saved.1 = rootSeq c
  ∧ (DeserializeRaw (Serialize h) = Some h →
     (∀ old, objects (ds c) !! saved.2 = Some old → old = Serialize h) →
     Get saved.1 saved.2 = (_schemaType, schemaData, None)).
Proof.
  intros saved h. unfold saved, SaveSchema. fold h. simpl.
  split_and!; try done.
  - apply lookup_insert_eq.
  - intros key Hne. by apply lookup_insert_ne.
  - intros Hrt Hslot. unfold Get, DBGet. simpl.
    pose proof (AddAutoKey_lookup (ds c) (Serialize h)) as Hl.
    unfold AddAutoKey in Hl. simpl in Hl. rewrite Hl.
    destruct (objects (ds c) !! SumSHA256 (Serialize h)) as [old|] eqn:Hk;
      simpl; [rewrite (Hslot old eq_refl)|]; by rewrite Hrt.
Qed.

End facts.

(** On the small instance. *)
Example Get_Save_example :
  @Get skyobject.toy_encoder
    (@Save skyobject.toy_encoder skyobject.empty_container 7%N
       skyobject.obj_a).1
    (@Save skyobject.toy_encoder skyobject.empty_container 7%N
       skyobject.obj_a).2
  = (7%N, skyobject.obj_a, None).
Proof.
  apply (@Get_Save skyobject.toy_encoder); [reflexivity|].
  intros old Hold. vm_compute in Hold. discriminate.
Defined.

Lemma SaveSchema_Get_witness :
  let saved := @SaveSchema skyobject.toy_encoder 1%N
                 skyobject.empty_container "User" skyobject.obj_b in
  @Get skyobject.toy_encoder saved.1 saved.2 = (1%N, skyobject.obj_b, None).
Proof.
  apply (@SaveSchema_Get skyobject.toy_encoder 1%N skyobject.empty_container
           "User" skyobject.obj_b); [reflexivity|].
  intros old Hold. vm_compute in Hold. discriminate.
Defined.

End container_facts.

Module node_facts.

Import node.

(** Every hash [sendEverythingWeHave] announces is a key of the database,
    so the database returns its bytes. *)
Lemma announced_retrievable (db : DB) (hash : SHA256) :
  Announce hash ∈ sendEverythingWeHave db → is_Some (DBGet db hash).
Proof.
  unfold sendEverythingWeHave, Range, DBGet. intros Hin.
  apply list_elem_of_fmap in Hin as (k & [= ->] & Hk).
  apply list_elem_of_fmap in Hk as ([k' v] & -> & Hkv).
  apply elem_of_map_to_list in Hkv. simpl. eauto.
Qed.

(** X26. [sendEverythingWeHave] sends one [Announce] for every key of the
    database and nothing else: a hash is announced exactly when the
    database holds it, no hash is announced twice, the number of
    messages is the number of keys, and no [Ping] is sent. *)
Theorem announces_the_keys (db : DB) :
  (∀ hash, Announce hash ∈ sendEverythingWeHave db ↔ is_Some (DBGet db hash))
  ∧ NoDup (sendEverythingWeHave db)
  ∧ length (sendEverythingWeHave db) = size (objects db)
  ∧ Ping ∉ sendEverythingWeHave db.
Proof.
  unfold sendEverythingWeHave, Range, DBGet. split_and!.
  - intros hash. split.
    + intros Hin. apply list_elem_of_fmap in Hin as (k & [= ->] & Hk).
      apply list_elem_of_fmap in Hk as ([k' v] & -> & Hkv).
      apply elem_of_map_to_list in Hkv. simpl. eauto.
    + intros [v Hv]. apply list_elem_of_fmap_2, list_elem_of_fmap.
      exists (hash, v). split; [done|]. by apply elem_of_map_to_list.
  - apply NoDup_fmap_2; [by intros ?? [=]|]. apply NoDup_fst_map_to_list.
  - by rewrite !length_fmap, length_map_to_list.
  - intros Hin. by apply list_elem_of_fmap in Hin as (k & [=] & _).
Qed.

End node_facts.
